(** * mynewt-newt: package references and the repository fetch cache

    A shallow embedding of [newt/newtutil/newtutil.go] (version comparison,
    package strings, repository designators) and of [cli/downloader.go]
    (the clone cache), with the properties the specification states about
    them.

    Conventions.
    - A Go [string] is a byte sequence: Rocq's [string] (a list of 8-bit
      [ascii]).
    - A Go [int] used as an index or a length is a [Z]; lengths of strings
      fit an [int], so no wrap-around is written for them.  [int64]
      arithmetic in [VerCmp] wraps, and the wrap is written out.
    - A run-time panic (a slice out of range) is [None] in the [option]
      monad; a Go [error] value is data. *)

From Stdlib Require Import ZArith Lia Ascii String List Bool.
From stdpp Require Import gmap strings.

Local Open Scope Z_scope.

(** ** Byte strings *)

Definition len (s : string) : Z := Z.of_nat (String.length s).

Fixpoint take (n : nat) (s : string) : string :=
  match n, s with
  | S k, String c t => String c (take k t)
  | _, _ => EmptyString
  end.

Fixpoint drop (n : nat) (s : string) : string :=
  match n, s with
  | S k, String _ t => drop k t
  | _, _ => s
  end.

(** [s[lo:hi]]: Go panics unless [0 <= lo <= hi <= len(s)]. *)
Definition slice (s : string) (lo hi : Z) : option string :=
  if (0 <=? lo) && (lo <=? hi) && (hi <=? len s)
  then Some (take (Z.to_nat (hi - lo)) (drop (Z.to_nat lo) s))
  else None.

(** [s[lo:]] and [s[:hi]]. *)
Definition slice_from (s : string) (lo : Z) : option string :=
  slice s lo (len s).

Definition slice_to (s : string) (hi : Z) : option string :=
  slice s 0 hi.

(** The Go [error] interface, as the message it carries. *)
Inductive error : Type :=
  | NewNewtError (msg : string).

(** ** Package [strings] of the Go standard library

    The functions [newtutil.go] calls, after their Go definitions. *)
Module GoStrings.

(** [len(s) >= len(prefix) && s[:len(prefix)] == prefix] *)
Definition HasPrefix (s prefix : string) : bool :=
  (len prefix <=? len s) && String.eqb (take (String.length prefix) s) prefix.

(** [len(s) >= len(suffix) && s[len(s)-len(suffix):] == suffix] *)
Definition HasSuffix (s suffix : string) : bool :=
  (len suffix <=? len s)
  && String.eqb (drop (String.length s - String.length suffix) s) suffix.

(** [if HasPrefix(s, prefix) { return s[len(prefix):] }; return s] *)
Definition TrimPrefix (s prefix : string) : string :=
  if HasPrefix s prefix then drop (String.length prefix) s else s.

(** [if HasSuffix(s, suffix) { return s[:len(s)-len(suffix)] }; return s] *)
Definition TrimSuffix (s suffix : string) : string :=
  if HasSuffix s suffix
  then take (String.length s - String.length suffix) s
  else s.

(** Index of the first instance of [substr] in [s], or [-1]. *)
Fixpoint Index (s substr : string) : Z :=
  if HasPrefix s substr then 0
  else match s with
       | EmptyString => -1
       | String _ t =>
           let i := Index t substr in
           if i <? 0 then -1 else i + 1
       end.

(** The loop of [genSplit]: at most [n] separators are consumed.
<<
    for i < n {
        m := Index(s, sep)
        if m < 0 { break }
        a[i] = s[:m]
        s = s[m+len(sep):]
        i++
    }
    a[i] = s
>> *)
Fixpoint genSplitLoop (n : nat) (s sep : string) : list string :=
  match n with
  | O => [s]
  | S k =>
      let m := Index s sep in
      if m <? 0 then [s]
      else take (Z.to_nat m) s
             :: genSplitLoop k (drop (Z.to_nat m + String.length sep) s) sep
  end.

(** [SplitN(s, sep, n)] for a non-empty [sep], the only kind this
    repository passes.  [n == 0] gives [nil]; [n < 0] means no limit;
    otherwise [n] is capped at [len(s)+1] and the loop runs [n-1] times. *)
Definition SplitN (s sep : string) (n : Z) : list string :=
  if n =? 0 then []
  else
    let n := if n <? 0 then len s + 1 else n in
    let n := if len s + 1 <? n then len s + 1 else n in
    genSplitLoop (Z.to_nat (n - 1)) s sep.

(** [Split(s, sep)] is [genSplit(s, sep, 0, -1)]. *)
Definition Split (s sep : string) : list string := SplitN s sep (-1).

End GoStrings.

(** ** Package [strconv] of the Go standard library

    [ParseInt(s, 10, 64)] and the [ParseUint(s, 10, 64)] under it: the
    base and the bit size are the ones [ParseVersion] passes. *)
Module GoStrconv.

(** The [Err] field of a [*NumError]. *)
Inductive NumError : Type :=
  | ErrSyntax
  | ErrRange.

Definition maxUint64 : Z := 2 ^ 64 - 1.

(** [maxUint64/10 + 1] *)
Definition cutoff10 : Z := maxUint64 / 10 + 1.

Definition byte_val (c : ascii) : Z := Z.of_N (N_of_ascii c).

(** [c | ('x' - 'X')] *)
Definition lower (c : ascii) : Z := Z.lor (byte_val c) 32.

(** The digit switch of [ParseUint]: a decimal digit is its value, a
    letter is ten or more, any other byte is a syntax error. *)
Definition digit_of (c : ascii) : option Z :=
  if (48 <=? byte_val c) && (byte_val c <=? 57) then Some (byte_val c - 48)
  else if (97 <=? lower c) && (lower c <=? 122) then Some (lower c - 97 + 10)
  else None.

(** The loop over the bytes, [n] being a [uint64]. *)
Fixpoint ParseUint_loop (s : string) (n : Z) : Z * option NumError :=
  match s with
  | EmptyString => (n, None)
  | String c t =>
      match digit_of c with
      | None => (0, Some ErrSyntax)
      | Some d =>
          if 10 <=? d then (0, Some ErrSyntax)
          else if cutoff10 <=? n then (maxUint64, Some ErrRange)
          else
            let n := (n * 10) mod 2 ^ 64 in
            let n1 := (n + d) mod 2 ^ 64 in
            if (n1 <? n) || (maxUint64 <? n1) then (maxUint64, Some ErrRange)
            else ParseUint_loop t n1
      end
  end.

Definition ParseUint (s : string) : Z * option NumError :=
  if String.eqb s "" then (0, Some ErrSyntax) else ParseUint_loop s 0.

(** [int64(un)] *)
Definition to_int64 (z : Z) : Z := (z + 2 ^ 63) mod 2 ^ 64 - 2 ^ 63.

Definition ParseInt (s : string) : Z * option NumError :=
  match s with
  | EmptyString => (0, Some ErrSyntax)
  | String c t =>
      let neg := Ascii.eqb c "-" in
      let s := if Ascii.eqb c "+" then t else if neg then t else s in
      let r := ParseUint s in
      match snd r with
      | Some ErrSyntax => (0, Some ErrSyntax)
      | _ =>
          let un := fst r in
          let cutoff := 2 ^ 63 in
          if negb neg && (cutoff <=? un) then (cutoff - 1, Some ErrRange)
          else if neg && (cutoff <? un) then (- cutoff, Some ErrRange)
          else
            let n := to_int64 un in
            (if neg then to_int64 (- n) else n, None)
      end
  end.

End GoStrconv.

(** ** Package [fmt] of the Go standard library: the verb [%d] *)
Module GoFmt.

Definition digit_char (d : Z) : ascii := ascii_of_N (Z.to_N (48 + d)).

(** The loop of [fmtInteger] in base ten, writing from the last digit:
<<
      for u >= 10 {
          i--
          next := u / 10
          buf[i] = byte('0' + u - next*10)
          u = next
      }
      i--
      buf[i] = byte('0' + u)
>>
    A [uint64] has at most twenty digits. *)
Fixpoint fmt_digits (fuel : nat) (u : Z) (buf : string) : string :=
  match fuel with
  | O => buf
  | S k =>
      if 10 <=? u then
        let next := u / 10 in
        fmt_digits k next (String (digit_char (u - next * 10)) buf)
      else String (digit_char u) buf
  end.

(** [%d] of an [int64]: [u := uint64(v)], negated when [v < 0]. *)
Definition fmt_d (v : Z) : string :=
  let negative := v <? 0 in
  let u := if negative then - v else v in
  let digits := fmt_digits 20 u "" in
  if negative then String "-" digits else digits.

End GoFmt.

(** ** Package [newtutil] *)
Module newtutil.
Import GoStrings.

(** *** Versions *)

Definition int64_min : Z := - 2 ^ 63.
Definition int64_max : Z := 2 ^ 63 - 1.

Definition is_int64 (z : Z) : Prop := int64_min <= z <= int64_max.

(** Two's complement wrap-around of a 64-bit signed result. *)
Definition wrap64 (z : Z) : Z := (z + 2 ^ 63) mod 2 ^ 64 - 2 ^ 63.

Definition sub64 (a b : Z) : Z := wrap64 (a - b).

Record Version : Type := mkVersion {
  Major : Z;
  Minor : Z;
  Revision : Z
}.

(** The fields are [int64]. *)
Definition valid_Version (v : Version) : Prop :=
  is_int64 (Major v) /\ is_int64 (Minor v) /\ is_int64 (Revision v).

Definition VerCmp (v1 v2 : Version) : Z :=
  let r := sub64 (Major v1) (Major v2) in
  if negb (r =? 0) then r
  else
    let r := sub64 (Minor v1) (Minor v2) in
    if negb (r =? 0) then r
    else
      let r := sub64 (Revision v1) (Revision v2) in
      if negb (r =? 0) then r
      else 0.

(** *** Package strings *)

Definition invalid_package_msg : string :=
  "Invalid package string; contains repo but no package name: ".

(** The result is Go's [(string, string, error)]; [None] is a panic. *)
Definition ParsePackageString (pkgStr : string)
  : option (string * string * option error) :=
  let pkgStr := TrimSuffix pkgStr "/" in
  if HasPrefix pkgStr "@" then
    rest ← slice_from pkgStr 1;
    let nameParts := SplitN rest "/" 2 in
    if Z.of_nat (List.length nameParts) =? 1 then
      Some ("", "", Some (NewNewtError (invalid_package_msg +:+ pkgStr)))
    else
      p0 ← nameParts !! 0%nat;
      p1 ← nameParts !! 1%nat;
      Some (p0, p1, None)
  else
    Some ("", pkgStr, None).

Definition BuildPackageString (repoName pkgName : string) : string :=
  if negb (String.eqb repoName "") then "@" +:+ repoName +:+ "/" +:+ pkgName
  else pkgName.

(** *** Repository designators *)

Definition FindRepoDesignator (s : string) : option (Z * Z) :=
  let start := Index s "@" in
  if start =? -1 then Some (-1, -1)
  else
    tail ← slice_from s start;
    let len := Index tail "/" in
    if len =? -1 then Some (-1, -1)
    else Some (start, len).

(** The project collaborator ([interfaces.GetProject()]): what the
    resolver asks of it. *)
Record ProjectInterface : Type := {
  FindRepoPath : string -> string;
  Path : string
}.

Definition ReplaceRepoDesignators (proj : ProjectInterface) (s : string)
  : option (string * bool) :=
  '(start, len) ← FindRepoDesignator s;
  if start =? -1 then Some (s, false)
  else
    repoName ← slice s (start + 1) (start + len);
    let repoPath := FindRepoPath proj repoName in
    if String.eqb repoPath "" then Some (s, false)
    else
      let relRepoPath := TrimPrefix repoPath (Path proj +:+ "/") in
      pre ← slice_to s start;
      post ← slice_from s (start + len);
      Some (pre +:+ relRepoPath +:+ post, true).

(** *** Parsing and printing versions *)

(** [util.FmtNewtError("Invalid version string: %s", s)] *)
Definition version_parse_error (s : string) : error :=
  NewNewtError ("Invalid version string: " +:+ s).

(** The result is Go's [(Version, error)]; [None] is a panic. *)
Definition ParseVersion (s : string) : option (Version * option error) :=
  let v := mkVersion 0 0 0 in
  let parseErr := version_parse_error s in
  let parts := Split s "." in
  if negb (Z.of_nat (List.length parts) =? 3) then Some (v, Some parseErr)
  else
    p0 ← parts !! 0%nat;
    let r := GoStrconv.ParseInt p0 in
    let v := mkVersion (fst r) (Minor v) (Revision v) in
    if negb (bool_decide (snd r = None)) then Some (v, Some parseErr)
    else
      p1 ← parts !! 1%nat;
      let r := GoStrconv.ParseInt p1 in
      let v := mkVersion (Major v) (fst r) (Revision v) in
      if negb (bool_decide (snd r = None)) then Some (v, Some parseErr)
      else
        p2 ← parts !! 2%nat;
        let r := GoStrconv.ParseInt p2 in
        let v := mkVersion (Major v) (Minor v) (fst r) in
        if negb (bool_decide (snd r = None)) then Some (v, Some parseErr)
        else Some (v, None).

(** The method [String]: [fmt.Sprintf("%d.%d.%d", ...)]. *)
Definition Version_String (v : Version) : string :=
  GoFmt.fmt_d (Major v) +:+ "." +:+ GoFmt.fmt_d (Minor v) +:+ "."
  +:+ GoFmt.fmt_d (Revision v).

(** *** One-time warnings *)

(** The verbosity level this file passes to [util.StatusMessage]. *)
Inductive Verbosity : Type :=
  | VERBOSITY_QUIET.

(** A call of [util.StatusMessage(level, format, arg)]. *)
Inductive StatusCall : Type :=
  | StatusMessage (level : Verbosity) (format : string) (arg : string).

(** The package variable [warnings] and the messages sent so far (most
    recent first). *)
Record WarningState : Type := mkWarningState {
  warnings : gset string;
  messages : list StatusCall
}.

Definition warning_format : string := "WARNING: %s" +:+ String "010" "".

(** [var warnings = map[string]struct{}{}], and nothing sent yet. *)
Definition no_warnings : WarningState :=
  {| warnings := ∅; messages := [] |}.

Section WithSprintf.
(** [fmt.Sprintf] on the caller's format and arguments. *)
Variable Arg : Type.
Variable Sprintf : string -> list Arg -> string.

Definition OneTimeWarning (text : string) (args : list Arg)
    (st : WarningState) : WarningState :=
  if negb (bool_decide (text ∈ warnings st)) then
    let body := Sprintf text args in
    {| warnings := {[text]} ∪ warnings st;
       messages :=
         StatusMessage VERBOSITY_QUIET warning_format body :: messages st |}
  else st.

(** A caller that reports the warnings of a list, in order. *)
Definition OneTimeWarnings (ws : list (string * list Arg))
    (st : WarningState) : WarningState :=
  fold_left (fun st w => OneTimeWarning (fst w) (snd w) st) ws st.

End WithSprintf.

End newtutil.

(** ** Package [cli]: the downloader *)
Module cli.

(** Calls that leave the process: the file system and the shell. *)
Inductive Call : Type :=
  | CallTempDir (dir pfx : string)
  | CallShellCommand (cmd : string)
  | CallRemoveAll (path : string)
  | CallCopyFile (src dst : string).

(** What the outside world answers.  An answer may depend on every call
    made so far (most recent first), so any deterministic environment
    is an [Env]. *)
Record Env : Type := {
  os_TempDir : list Call -> string -> string -> string * option error;
  os_ShellCommand : list Call -> string -> string * option error;
  os_RemoveAll : list Call -> string -> option error;
  os_CopyFile : list Call -> string -> string -> option error
}.

Record Downloader : Type := mkDownloader {
  Repos : gmap string string
}.

(** The receiver [dl] and the calls made so far. *)
Record State : Type := mkState {
  dl : Downloader;
  calls : list Call
}.

Definition M (A : Type) : Type := State -> A * State.

Definition ret {A : Type} (a : A) : M A := fun st => (a, st).

Definition bind {A B : Type} (m : M A) (k : A -> M B) : M B :=
  fun st => let r := m st in k (fst r) (snd r).

Notation "'let*' x := m 'in' k" := (bind m (fun x => k))
  (at level 10, x name, m at level 100, k at level 200,
   format "'[v' 'let*'  x  :=  m  'in' '/' k ']'").

Definition get_dl : M Downloader := fun st => (dl st, st).

(** [dl.Repos[key] = dir] *)
Definition set_Repos (key dir : string) : M unit :=
  fun st =>
    (tt, {| dl := {| Repos := <[key := dir]> (Repos (dl st)) |};
            calls := calls st |}).

Definition NewDownloader : Downloader * option error :=
  ({| Repos := ∅ |}, None).

(** [fmt.Sprintf("git clone -b %s %s %s", branch, url, dest)] *)
Definition clone_command (url branch dest : string) : string :=
  "git clone -b " +:+ branch +:+ " " +:+ url +:+ " " +:+ dest.

Definition is_clone (c : Call) : bool :=
  match c with
  | CallShellCommand cmd => GoStrings.HasPrefix cmd "git clone -b "
  | _ => false
  end.

(** How many times the clone command was run in a history. *)
Definition clone_count (h : list Call) : nat :=
  List.length (List.filter is_clone h).

(** The state right after the call [ioutil.TempDir("", "newtrepo")]. *)
Definition after_TempDir (st : State) : State :=
  {| dl := dl st; calls := CallTempDir "" "newtrepo" :: calls st |}.

Section WithEnv.
Variable env : Env.

Definition TempDir (dir pfx : string) : M (string * option error) :=
  fun st =>
    (os_TempDir env (calls st) dir pfx,
     {| dl := dl st; calls := CallTempDir dir pfx :: calls st |}).

Definition ShellCommand (cmd : string) : M (string * option error) :=
  fun st =>
    (os_ShellCommand env (calls st) cmd,
     {| dl := dl st; calls := CallShellCommand cmd :: calls st |}).

Definition RemoveAll (path : string) : M (option error) :=
  fun st =>
    (os_RemoveAll env (calls st) path,
     {| dl := dl st; calls := CallRemoveAll path :: calls st |}).

Definition CopyFile (src dst : string) : M (option error) :=
  fun st =>
    (os_CopyFile env (calls st) src dst,
     {| dl := dl st; calls := CallCopyFile src dst :: calls st |}).

Definition gitClone (url branch dest : string) : M (option error) :=
  let* r := ShellCommand (clone_command url branch dest) in
  match snd r with
  | Some err => ret (Some err)
  | None =>
      let* e := RemoveAll (dest +:+ "/.git/") in
      match e with
      | Some err => ret (Some err)
      | None => ret None
      end
  end.

Definition GetRepo (repoUrl branch : string) : M (string * option error) :=
  let* d := get_dl in
  match Repos d !! (repoUrl +:+ branch) with
  | Some dir => ret (dir, None)
  | None =>
      let* r := TempDir "" "newtrepo" in
      match snd r with
      | Some err => ret ("", Some err)
      | None =>
          let* cerr := gitClone repoUrl branch (fst r) in
          match cerr with
          | Some _ => ret ("", None)
          | None =>
              let* _ := set_Repos (repoUrl +:+ branch) (fst r) in
              ret (fst r, None)
          end
      end
  end.

Definition DownloadFile (repoUrl branch filePath destPath : string)
  : M (option error) :=
  let* r := GetRepo repoUrl branch in
  match snd r with
  | Some err => ret (Some err)
  | None =>
      let* e := CopyFile (fst r +:+ "/" +:+ filePath) destPath in
      match e with
      | Some err => ret (Some err)
      | None => ret None
      end
  end.

(** A caller's use of one downloader: any sequence of the two
    exported methods. *)
Inductive Op : Type :=
  | OpGetRepo (repoUrl branch : string)
  | OpDownloadFile (repoUrl branch filePath destPath : string).

Definition step (op : Op) (st : State) : State :=
  match op with
  | OpGetRepo repoUrl branch => snd (GetRepo repoUrl branch st)
  | OpDownloadFile repoUrl branch filePath destPath =>
      snd (DownloadFile repoUrl branch filePath destPath st)
  end.

Definition run (ops : list Op) (st : State) : State :=
  fold_left (fun st op => step op st) ops st.

End WithEnv.

End cli.

(** ** The specification's reference descriptions

    Definitions written after the specification's wording, by direct
    recursion on the characters, to compare the code against. *)
Module Reference.

(** [c] is one of the characters of [s]. *)
Fixpoint occurs (c : ascii) (s : string) : bool :=
  match s with
  | EmptyString => false
  | String d t => Ascii.eqb d c || occurs c t
  end.

(** The last character of [s] is [c]. *)
Fixpoint ends_with (c : ascii) (s : string) : bool :=
  match s with
  | EmptyString => false
  | String d t => if String.eqb t "" then Ascii.eqb d c else ends_with c t
  end.

(** The first character of [s] is [c]. *)
Definition starts_with (c : ascii) (s : string) : bool :=
  match s with
  | EmptyString => false
  | String d _ => Ascii.eqb d c
  end.

(** Strip one trailing [/] if present. *)
Fixpoint strip_trailing_slash (s : string) : string :=
  match s with
  | EmptyString => EmptyString
  | String c t =>
      if Ascii.eqb c "/" && String.eqb t "" then EmptyString
      else String c (strip_trailing_slash t)
  end.

(** Split on the first [c]: the text before it and the text after it. *)
Fixpoint cut (c : ascii) (s : string) : option (string * string) :=
  match s with
  | EmptyString => None
  | String d t =>
      if Ascii.eqb d c then Some (EmptyString, t)
      else match cut c t with
           | Some (a, b) => Some (String d a, b)
           | None => None
           end
  end.

Inductive parse_result : Type :=
  | Parsed (repoName packagePath : string)
  | InvalidPackageString (offending : string).

Definition parsePackageString (input : string) : parse_result :=
  let s := strip_trailing_slash input in
  match s with
  | String c rest =>
      if Ascii.eqb c "@" then
        match cut "/" rest with
        | Some (repoName, packagePath) => Parsed repoName packagePath
        | None => InvalidPackageString s
        end
      else Parsed "" s
  | EmptyString => Parsed "" s
  end.

(** The Go triple [(repoName, packageName, err)] of a reference result. *)
Definition go_result (r : parse_result) : string * string * option error :=
  match r with
  | Parsed repoName packagePath => (repoName, packagePath, None)
  | InvalidPackageString s =>
      ("", "", Some (NewNewtError (newtutil.invalid_package_msg +:+ s)))
  end.

(** [s] without the leading [p], when [s] starts with [p]. *)
Fixpoint strip_prefix (p s : string) : option string :=
  match p, s with
  | EmptyString, _ => Some s
  | String a p', String b s' =>
      if Ascii.eqb a b then strip_prefix p' s' else None
  | String _ _, EmptyString => None
  end.

(** The repository path with the project root and its separator
    stripped when present. *)
Definition relativeRepoPath (root repoPath : string) : string :=
  match strip_prefix (root +:+ "/") repoPath with
  | Some rest => rest
  | None => repoPath
  end.

(** [s] holds no designator: no [@] at all, or no [/] at or after the
    first [@]. *)
Definition no_designator (s : string) : Prop :=
  occurs "@" s = false \/
  exists pre rest,
    s = pre +:+ String "@" rest /\
    occurs "@" pre = false /\ occurs "/" rest = false.

(** The first [@] of [s] comes right after [pre], and the first [/]
    after it comes right after [name]. *)
Definition designator_at (s pre name post : string) : Prop :=
  s = pre +:+ String "@" (name +:+ String "/" post) /\
  occurs "@" pre = false /\ occurs "/" name = false.

(** No component of the version is negative. *)
Definition nonneg_Version (v : newtutil.Version) : Prop :=
  0 <= newtutil.Major v /\ 0 <= newtutil.Minor v
  /\ 0 <= newtutil.Revision v.

(** The sign of one result is the opposite of the sign of the other. *)
Definition opposite_sign (x y : Z) : Prop := Z.sgn x = - Z.sgn y.

(** How many of the characters of [s] are [c]. *)
Fixpoint count (c : ascii) (s : string) : nat :=
  match s with
  | EmptyString => O
  | String d t => if Ascii.eqb d c then S (count c t) else count c t
  end.

(** [c] is one of the characters [0] to [9]. *)
Definition is_digit (c : ascii) : bool :=
  (48 <=? GoStrconv.byte_val c) && (GoStrconv.byte_val c <=? 57).

Fixpoint all_digits (s : string) : bool :=
  match s with
  | EmptyString => true
  | String c t => is_digit c && all_digits t
  end.

(** The number a string of decimal digits writes, read after [a]. *)
Fixpoint dec_val (a : Z) (s : string) : Z :=
  match s with
  | EmptyString => a
  | String c t => dec_val (10 * a + (GoStrconv.byte_val c - 48)) t
  end.

(** Lexicographic order on (major, minor, revision). *)
Definition lex_lt (a b : newtutil.Version) : Prop :=
  newtutil.Major a < newtutil.Major b \/
  (newtutil.Major a = newtutil.Major b /\
   (newtutil.Minor a < newtutil.Minor b \/
    (newtutil.Minor a = newtutil.Minor b /\
     newtutil.Revision a < newtutil.Revision b))).

(** Every entry of the cache was cloned: its key is [url +:+ branch] for
    a clone command, in the history, into the directory recorded. *)
Definition all_cloned (st : cli.State) : Prop :=
  forall key dir,
    cli.Repos (cli.dl st) !! key = Some dir ->
    exists url branch,
      key = url +:+ branch /\
      In (cli.CallShellCommand (cli.clone_command url branch dir))
         (cli.calls st).

End Reference.

(** ** Sample collaborators *)
Module Samples.

(** A project rooted at [/proj] that knows the one repository [repoX]. *)
Definition projX : newtutil.ProjectInterface :=
  {| newtutil.FindRepoPath :=
       fun name => if String.eqb name "repoX" then "/proj/repoX" else "";
     newtutil.Path := "/proj" |}.

(** A downloader just made by [NewDownloader], before any call. *)
Definition fresh : cli.State :=
  {| cli.dl := fst cli.NewDownloader; cli.calls := [] |}.

(** A machine where temporary directories can be made and every clone
    works. *)
Definition clone_ok : cli.Env :=
  {| cli.os_TempDir := fun h _ _ =>
       (if Nat.eqb (List.length h) 0 then "/tmp/newtrepo1"
        else "/tmp/newtrepo2", None);
     cli.os_ShellCommand := fun _ _ => ("", None);
     cli.os_RemoveAll := fun _ _ => None;
     cli.os_CopyFile := fun _ _ _ => None |}.

(** A machine where [git clone] exits with an error. *)
Definition clone_fails : cli.Env :=
  {| cli.os_TempDir := fun _ _ _ => ("/tmp/newtrepo1", None);
     cli.os_ShellCommand := fun _ _ =>
       ("fatal: repository not found", Some (NewNewtError "exit status 128"));
     cli.os_RemoveAll := fun _ _ => None;
     cli.os_CopyFile := fun _ _ _ => None |}.

(** A machine where no temporary directory can be made. *)
Definition tempdir_fails : cli.Env :=
  {| cli.os_TempDir := fun _ _ _ =>
       ("", Some (NewNewtError "mkdir /tmp/newtrepo1: permission denied"));
     cli.os_ShellCommand := fun _ _ => ("", None);
     cli.os_RemoveAll := fun _ _ => None;
     cli.os_CopyFile := fun _ _ _ => None |}.

End Samples.

(** * Properties *)

Import GoStrings newtutil Reference.

(** ** Byte strings *)
Section ByteStrings.

Lemma str_app_nil_l (s : string) : "" +:+ s = s.
Proof. reflexivity. Qed.

Lemma str_app_cons (c : ascii) (s t : string) :
  String c s +:+ t = String c (s +:+ t).
Proof. reflexivity. Qed.

Lemma str_app_nil_r (s : string) : s +:+ "" = s.
Proof. induction s as [|c s IH]; [reflexivity|]. now rewrite str_app_cons, IH. Qed.

Lemma str_app_assoc (s t u : string) : (s +:+ t) +:+ u = s +:+ (t +:+ u).
Proof.
  induction s as [|c s IH]; [reflexivity|]. now rewrite !str_app_cons, IH.
Qed.

Lemma str_length_app (s t : string) :
  String.length (s +:+ t) = (String.length s + String.length t)%nat.
Proof.
  induction s as [|c s IH]; [reflexivity|].
  rewrite str_app_cons. simpl. now rewrite IH.
Qed.

Lemma len_nonneg (s : string) : 0 <= len s.
Proof. unfold len. lia. Qed.

Lemma len_cons (c : ascii) (s : string) : len (String c s) = len s + 1.
Proof. unfold len. simpl String.length. lia. Qed.

Lemma len_app (s t : string) : len (s +:+ t) = len s + len t.
Proof. unfold len. rewrite str_length_app. lia. Qed.

Lemma str_take_app (s t : string) : take (String.length s) (s +:+ t) = s.
Proof.
  induction s as [|c s IH]; [now destruct t|].
  rewrite str_app_cons. simpl. now rewrite IH.
Qed.

Lemma str_drop_app (s t : string) : drop (String.length s) (s +:+ t) = t.
Proof.
  induction s as [|c s IH]; [reflexivity|]. rewrite str_app_cons. simpl. exact IH.
Qed.

Lemma str_take_all (s : string) : take (String.length s) s = s.
Proof. rewrite <- (str_app_nil_r s) at 2. apply str_take_app. Qed.

Lemma str_take_drop (n : nat) (s : string) : take n s +:+ drop n s = s.
Proof.
  revert s; induction n as [|n IH]; intros s; [reflexivity|].
  destruct s as [|c s]; [reflexivity|]. simpl. now rewrite str_app_cons, IH.
Qed.

Lemma slice_app (pre mid post : string) :
  slice (pre +:+ mid +:+ post) (len pre) (len pre + len mid) = Some mid.
Proof.
  unfold slice. rewrite !len_app.
  pose proof (len_nonneg pre). pose proof (len_nonneg mid).
  pose proof (len_nonneg post).
  destruct (Z.leb_spec 0 (len pre)); [|lia].
  destruct (Z.leb_spec (len pre) (len pre + len mid)); [|lia].
  destruct (Z.leb_spec (len pre + len mid) (len pre + (len mid + len post)));
    [|lia].
  simpl. f_equal. unfold len. rewrite Nat2Z.id.
  replace (Z.to_nat _) with (String.length mid) by lia.
  now rewrite str_drop_app, str_take_app.
Qed.

Lemma slice_to_app (pre post : string) :
  slice_to (pre +:+ post) (len pre) = Some pre.
Proof.
  pose proof (slice_app "" pre post) as H. rewrite !str_app_nil_l in H.
  exact H.
Qed.

Lemma slice_from_app (pre post : string) :
  slice_from (pre +:+ post) (len pre) = Some post.
Proof.
  pose proof (slice_app pre post "") as H. rewrite !str_app_nil_r in H.
  unfold slice_from. now rewrite len_app.
Qed.

Lemma string_eqb_refl (s : string) : String.eqb s s = true.
Proof. now apply String.eqb_eq. Qed.

End ByteStrings.

(** ** The [strings] functions against the reference descriptions *)
Section StringsFacts.

Lemma HasPrefix_nil (s : string) : HasPrefix s "" = true.
Proof.
  unfold HasPrefix.
  replace (len "" <=? len s) with true
    by (symmetry; apply Z.leb_le, len_nonneg).
  now destruct s.
Qed.

Lemma HasPrefix_of_nil (a : ascii) (p : string) :
  HasPrefix "" (String a p) = false.
Proof.
  unfold HasPrefix. rewrite len_cons. pose proof (len_nonneg p).
  destruct (Z.leb_spec (len p + 1) (len "")) as [Hle|_]; [|reflexivity].
  unfold len in Hle at 2. simpl in Hle. lia.
Qed.

Lemma HasPrefix_cons (b a : ascii) (s p : string) :
  HasPrefix (String b s) (String a p) = Ascii.eqb b a && HasPrefix s p.
Proof.
  unfold HasPrefix. rewrite !len_cons. simpl.
  destruct (Z.leb_spec (len p + 1) (len s + 1)),
           (Z.leb_spec (len p) (len s)); try lia;
    simpl; rewrite ?andb_false_r; reflexivity.
Qed.

Lemma HasPrefix_char (d c : ascii) (t : string) :
  HasPrefix (String d t) (String c "") = Ascii.eqb d c.
Proof. now rewrite HasPrefix_cons, HasPrefix_nil, andb_true_r. Qed.

Lemma HasPrefix_app (p r : string) : HasPrefix (p +:+ r) p = true.
Proof.
  induction p as [|a p IH]; [apply HasPrefix_nil|].
  now rewrite str_app_cons, HasPrefix_cons, Ascii.eqb_refl, IH.
Qed.

(** [TrimPrefix] strips the prefix when it is there. *)
Lemma HasPrefix_strip_prefix (p s : string) :
  match strip_prefix p s with
  | Some r => HasPrefix s p = true /\ drop (String.length p) s = r
  | None => HasPrefix s p = false
  end.
Proof.
  revert s; induction p as [|a p IH]; intros s; simpl.
  - split; [apply HasPrefix_nil | now destruct s].
  - destruct s as [|b s]; [apply HasPrefix_of_nil|].
    rewrite HasPrefix_cons, (Ascii.eqb_sym b a).
    destruct (Ascii.eqb a b); [|reflexivity]. simpl. apply IH.
Qed.

Lemma TrimPrefix_relative (root repoPath : string) :
  TrimPrefix repoPath (root +:+ "/") = relativeRepoPath root repoPath.
Proof.
  unfold TrimPrefix, relativeRepoPath.
  pose proof (HasPrefix_strip_prefix (root +:+ "/") repoPath) as H.
  destruct (strip_prefix (root +:+ "/") repoPath) as [r|].
  - destruct H as [-> <-]. reflexivity.
  - now rewrite H.
Qed.

Lemma Index_char_nil (c : ascii) : Index "" (String c "") = -1.
Proof. reflexivity. Qed.

Lemma Index_char_cons (d c : ascii) (t : string) :
  Index (String d t) (String c "") =
    if Ascii.eqb d c then 0
    else if Index t (String c "") <? 0 then -1
         else Index t (String c "") + 1.
Proof.
  change (Index (String d t) (String c "")) with
    (if HasPrefix (String d t) (String c "") then 0
     else if Index t (String c "") <? 0 then -1
          else Index t (String c "") + 1).
  now rewrite HasPrefix_char.
Qed.

Lemma Index_char_absent (c : ascii) (s : string) :
  occurs c s = false -> Index s (String c "") = -1.
Proof.
  induction s as [|d s IH]; simpl occurs; intros H; [reflexivity|].
  apply orb_false_iff in H as [Hd Hs].
  rewrite Index_char_cons, Hd, (IH Hs). reflexivity.
Qed.

Lemma Index_char_first (c : ascii) (pre rest : string) :
  occurs c pre = false ->
  Index (pre +:+ String c rest) (String c "") = len pre.
Proof.
  induction pre as [|d pre IH]; simpl occurs; intros H.
  - rewrite str_app_nil_l, Index_char_cons, Ascii.eqb_refl. reflexivity.
  - apply orb_false_iff in H as [Hd Hs].
    rewrite str_app_cons, Index_char_cons, Hd, (IH Hs), len_cons.
    pose proof (len_nonneg pre).
    destruct (Z.ltb_spec (len pre) 0); [lia | reflexivity].
Qed.

(** A string in which [c] occurs splits at its first [c]. *)
Lemma occurs_split (c : ascii) (s : string) :
  occurs c s = true ->
  exists pre rest, s = pre +:+ String c rest /\ occurs c pre = false.
Proof.
  induction s as [|d s IH]; simpl; intros H; [discriminate|].
  destruct (Ascii.eqb d c) eqn:Hd.
  - apply Ascii.eqb_eq in Hd as ->. now exists "", s.
  - destruct (IH H) as (pre & rest & -> & Hpre).
    exists (String d pre), rest. split; [reflexivity|].
    simpl. now rewrite Hd, Hpre.
Qed.

Lemma Index_char_range (c : ascii) (s : string) :
  Index s (String c "") = -1 \/ 0 <= Index s (String c "") < len s.
Proof.
  destruct (occurs c s) eqn:H.
  - right. destruct (occurs_split _ _ H) as (pre & rest & -> & Hpre).
    rewrite (Index_char_first _ _ _ Hpre), len_app, len_cons.
    pose proof (len_nonneg pre). pose proof (len_nonneg rest). lia.
  - left. now apply Index_char_absent.
Qed.

End StringsFacts.

(** ** Repository designators *)
Section Designators.

Lemma FindRepoDesignator_no_at (s : string) :
  occurs "@" s = false -> FindRepoDesignator s = Some (-1, -1).
Proof.
  intros H. unfold FindRepoDesignator.
  now rewrite (Index_char_absent _ _ H).
Qed.

Lemma FindRepoDesignator_at (pre rest : string) :
  occurs "@" pre = false ->
  FindRepoDesignator (pre +:+ String "@" rest) =
    if Index rest "/" <? 0 then Some (-1, -1)
    else Some (len pre, Index rest "/" + 1).
Proof.
  intros Hpre. unfold FindRepoDesignator.
  rewrite (Index_char_first _ _ _ Hpre).
  pose proof (len_nonneg pre).
  destruct (Z.eqb_spec (len pre) (-1)); [lia|].
  rewrite slice_from_app. simpl. rewrite HasPrefix_char.
  change (Ascii.eqb "@" "/") with false. cbv iota.
  destruct (Index_char_range "/" rest) as [->|Hr]; [reflexivity|].
  destruct (Z.ltb_spec (Index rest "/") 0); [lia|].
  destruct (Z.eqb_spec (Index rest "/" + 1) (-1)); [lia | reflexivity].
Qed.

Lemma FindRepoDesignator_no_slash (pre rest : string) :
  occurs "@" pre = false -> occurs "/" rest = false ->
  FindRepoDesignator (pre +:+ String "@" rest) = Some (-1, -1).
Proof.
  intros Hpre Hrest.
  now rewrite (FindRepoDesignator_at _ _ Hpre), (Index_char_absent _ _ Hrest).
Qed.

Lemma FindRepoDesignator_found (pre name post : string) :
  occurs "@" pre = false -> occurs "/" name = false ->
  FindRepoDesignator (pre +:+ String "@" (name +:+ String "/" post)) =
    Some (len pre, len name + 1).
Proof.
  intros Hpre Hname.
  rewrite (FindRepoDesignator_at _ _ Hpre), (Index_char_first _ _ _ Hname).
  pose proof (len_nonneg name).
  destruct (Z.ltb_spec (len name) 0); [lia | reflexivity].
Qed.

(** Every string either holds no designator or splits around one. *)
Lemma designator_cases (s : string) :
  no_designator s \/ exists pre name post, designator_at s pre name post.
Proof.
  destruct (occurs "@" s) eqn:Hat; [|now left; left].
  destruct (occurs_split _ _ Hat) as (pre & rest & -> & Hpre).
  destruct (occurs "/" rest) eqn:Hsl.
  - destruct (occurs_split _ _ Hsl) as (name & post & -> & Hname).
    right. now exists pre, name, post.
  - left; right. now exists pre, rest.
Qed.

Lemma FindRepoDesignator_none (s : string) :
  no_designator s -> FindRepoDesignator s = Some (-1, -1).
Proof.
  intros [H | (pre & rest & -> & Hpre & Hrest)].
  - now apply FindRepoDesignator_no_at.
  - now apply FindRepoDesignator_no_slash.
Qed.

(** A found designator gives back the split of the string. *)
Lemma FindRepoDesignator_some (s : string) (start length : Z) :
  FindRepoDesignator s = Some (start, length) -> start <> -1 ->
  exists pre name post,
    designator_at s pre name post /\
    start = len pre /\ length = len name + 1.
Proof.
  intros H Hstart.
  destruct (designator_cases s) as [Hno | (pre & name & post & Hd)].
  - rewrite (FindRepoDesignator_none _ Hno) in H. congruence.
  - exists pre, name, post. split; [exact Hd|].
    destruct Hd as (-> & Hpre & Hname).
    rewrite (FindRepoDesignator_found _ _ _ Hpre Hname) in H.
    now inversion H.
Qed.

(** C9. [FindRepoDesignator] answers [(-1, -1)] exactly when the string
    has no [@], or no [/] at or after its first [@]; otherwise it answers
    the index of the first [@] and the offset, counted from that [@], of
    the first [/] after it. *)
Theorem FindRepoDesignator_spec (s : string) :
  (FindRepoDesignator s = Some (-1, -1) <-> no_designator s) /\
  (forall pre name post,
      designator_at s pre name post ->
      FindRepoDesignator s = Some (len pre, len name + 1)) /\
  (no_designator s \/ exists pre name post, designator_at s pre name post).
Proof.
  split; [split|split].
  - intros H.
    destruct (designator_cases s) as [Hno | (pre & name & post & Hd)];
      [exact Hno|].
    destruct Hd as (-> & Hpre & Hname).
    rewrite (FindRepoDesignator_found _ _ _ Hpre Hname) in H.
    pose proof (len_nonneg pre). inversion H. lia.
  - apply FindRepoDesignator_none.
  - intros pre name post (-> & Hpre & Hname).
    now apply FindRepoDesignator_found.
  - apply designator_cases.
Qed.

Lemma FindRepoDesignator_spec_witness :
  FindRepoDesignator "has@nosep" = Some (-1, -1) /\
  FindRepoDesignator "no-at-sign" = Some (-1, -1) /\
  FindRepoDesignator "a/b@repo/c" = Some (3, 5).
Proof.
  split; [|split].
  - apply (proj1 (FindRepoDesignator_spec "has@nosep")).
    right. exists "has", "nosep". repeat split; reflexivity.
  - apply (proj1 (FindRepoDesignator_spec "no-at-sign")).
    left. reflexivity.
  - apply (proj1 (proj2 (FindRepoDesignator_spec "a/b@repo/c"))
             "a/b" "repo" "c").
    repeat split; reflexivity.
Defined.

End Designators.

(** ** Replacing a designator *)
Section Replace.

Variable proj : ProjectInterface.

Lemma designator_slices (pre name post : string) :
  let s := pre +:+ String "@" (name +:+ String "/" post) in
  slice s (len pre + 1) (len pre + (len name + 1)) = Some name /\
  slice_to s (len pre) = Some pre /\
  slice_from s (len pre + (len name + 1)) = Some (String "/" post).
Proof.
  intros s. split; [|split].
  - pose proof (slice_app (pre +:+ "@") name (String "/" post)) as H.
    rewrite len_app, str_app_assoc in H.
    change (len "@") with 1 in H.
    replace (len pre + (len name + 1)) with (len pre + 1 + len name) by lia.
    exact H.
  - apply slice_to_app.
  - pose proof (slice_from_app (pre +:+ String "@" name) (String "/" post))
      as H.
    rewrite len_app, len_cons, str_app_assoc in H.
    exact H.
Qed.

(** What [ReplaceRepoDesignators] does around a designator. *)
Lemma ReplaceRepoDesignators_found (pre name post : string) :
  occurs "@" pre = false -> occurs "/" name = false ->
  ReplaceRepoDesignators proj
    (pre +:+ String "@" (name +:+ String "/" post)) =
    if String.eqb (FindRepoPath proj name) ""
    then Some (pre +:+ String "@" (name +:+ String "/" post), false)
    else Some (pre +:+ relativeRepoPath (Path proj) (FindRepoPath proj name)
                   +:+ String "/" post, true).
Proof.
  intros Hpre Hname. unfold ReplaceRepoDesignators.
  rewrite (FindRepoDesignator_found _ _ _ Hpre Hname).
  destruct (designator_slices pre name post) as (Hn & Hp & Hq).
  cbn [mbind option_bind]. pose proof (len_nonneg pre).
  destruct (Z.eqb_spec (len pre) (-1)); [lia|].
  rewrite Hn. cbn [mbind option_bind].
  destruct (String.eqb (FindRepoPath proj name) ""); [reflexivity|].
  rewrite Hp, Hq. cbn [mbind option_bind].
  now rewrite TrimPrefix_relative.
Qed.

Lemma ReplaceRepoDesignators_none (s : string) :
  FindRepoDesignator s = Some (-1, -1) ->
  ReplaceRepoDesignators proj s = Some (s, false).
Proof. intros H. unfold ReplaceRepoDesignators. now rewrite H. Qed.

(** C7. Around a designator whose repository the project knows,
    [ReplaceRepoDesignators] splices the repository path relative to
    the project root in place of the [@name] token and answers [true];
    with [repoX] at [/proj/repoX] under the root [/proj],
    [@repoX/sub/path] becomes [repoX/sub/path]. *)
Theorem ReplaceRepoDesignators_splice :
  (forall (s : string) (start length : Z) (repoName : string),
      FindRepoDesignator s = Some (start, length) ->
      start <> -1 ->
      slice s (start + 1) (start + length) = Some repoName ->
      FindRepoPath proj repoName <> "" ->
      exists pre post,
        slice_to s start = Some pre /\
        slice_from s (start + length) = Some post /\
        ReplaceRepoDesignators proj s =
          Some (pre
                +:+ relativeRepoPath (Path proj) (FindRepoPath proj repoName)
                +:+ post, true)) /\
  (FindRepoPath proj "repoX" = "/proj/repoX" -> Path proj = "/proj" ->
   ReplaceRepoDesignators proj "@repoX/sub/path"
     = Some ("repoX/sub/path", true)).
Proof.
  split.
  - intros s start length repoName Hfind Hstart Hname Hknown.
    destruct (FindRepoDesignator_some _ _ _ Hfind Hstart)
      as (pre & name & post & (-> & Hpre & Hnm) & -> & ->).
    destruct (designator_slices pre name post) as (Hn & Hp & Hq).
    rewrite Hn in Hname. injection Hname as <-.
    exists pre, (String "/" post). repeat split; [exact Hp | exact Hq |].
    rewrite (ReplaceRepoDesignators_found _ _ _ Hpre Hnm).
    destruct (String.eqb_spec (FindRepoPath proj name) ""); [contradiction|].
    reflexivity.
  - intros Hrepo Hroot.
    pose proof (ReplaceRepoDesignators_found "" "repoX" "sub/path"
                  eq_refl eq_refl) as H.
    rewrite Hrepo, Hroot in H. exact H.
Qed.

(** C8. [ReplaceRepoDesignators] always returns: with no designator in
    the string, or with a repository name the project answers [""] for,
    it returns the string as it was, and [false]. *)
Theorem ReplaceRepoDesignators_never_fails (s : string) :
  (exists r, ReplaceRepoDesignators proj s = Some r) /\
  (FindRepoDesignator s = Some (-1, -1) ->
   ReplaceRepoDesignators proj s = Some (s, false)) /\
  (forall (start length : Z) (repoName : string),
      FindRepoDesignator s = Some (start, length) ->
      start <> -1 ->
      slice s (start + 1) (start + length) = Some repoName ->
      FindRepoPath proj repoName = "" ->
      ReplaceRepoDesignators proj s = Some (s, false)).
Proof.
  split; [|split].
  - destruct (designator_cases s) as [Hno | (pre & name & post & Hd)].
    + eexists. apply ReplaceRepoDesignators_none.
      now apply FindRepoDesignator_none.
    + destruct Hd as (-> & Hpre & Hnm).
      rewrite (ReplaceRepoDesignators_found _ _ _ Hpre Hnm).
      destruct (String.eqb _ ""); eexists; reflexivity.
  - apply ReplaceRepoDesignators_none.
  - intros start length repoName Hfind Hstart Hname Hunknown.
    destruct (FindRepoDesignator_some _ _ _ Hfind Hstart)
      as (pre & name & post & (-> & Hpre & Hnm) & -> & ->).
    destruct (designator_slices pre name post) as (Hn & _ & _).
    rewrite Hn in Hname. injection Hname as <-.
    rewrite (ReplaceRepoDesignators_found _ _ _ Hpre Hnm), Hunknown.
    reflexivity.
Qed.

End Replace.

Lemma ReplaceRepoDesignators_splice_witness :
  ReplaceRepoDesignators Samples.projX "@repoX/sub/path"
    = Some ("repoX/sub/path", true) /\
  exists pre post,
    slice_to "x/@repoX/y" 2 = Some pre /\
    slice_from "x/@repoX/y" (2 + 6) = Some post /\
    ReplaceRepoDesignators Samples.projX "x/@repoX/y" =
      Some (pre +:+ relativeRepoPath "/proj" "/proj/repoX" +:+ post, true).
Proof.
  split.
  - apply (proj2 (ReplaceRepoDesignators_splice Samples.projX));
      reflexivity.
  - apply (proj1 (ReplaceRepoDesignators_splice Samples.projX)
             "x/@repoX/y" 2 6 "repoX");
      [reflexivity | lia | reflexivity | discriminate].
Defined.

Lemma ReplaceRepoDesignators_never_fails_witness :
  ReplaceRepoDesignators Samples.projX "no-at-sign"
    = Some ("no-at-sign", false) /\
  ReplaceRepoDesignators Samples.projX "lib/@repoY/sub"
    = Some ("lib/@repoY/sub", false).
Proof.
  split.
  - apply (proj1 (proj2 (ReplaceRepoDesignators_never_fails
                           Samples.projX "no-at-sign"))).
    reflexivity.
  - apply (proj2 (proj2 (ReplaceRepoDesignators_never_fails
                           Samples.projX "lib/@repoY/sub")) 4 6 "repoY");
      [reflexivity | lia | reflexivity | reflexivity].
Defined.

(** ** Package strings *)
Section PackageStrings.

Lemma HasSuffix_slash_cons (c d : ascii) (u : string) :
  HasSuffix (String c (String d u)) "/" = HasSuffix (String d u) "/".
Proof.
  unfold HasSuffix. change (len "/") with 1. rewrite !len_cons.
  pose proof (len_nonneg u).
  destruct (Z.leb_spec 1 (len u + 1 + 1)); [|lia].
  destruct (Z.leb_spec 1 (len u + 1)); [|lia].
  simpl. now rewrite Nat.sub_0_r.
Qed.

Lemma TrimSuffix_slash_cons (c d : ascii) (u : string) :
  TrimSuffix (String c (String d u)) "/" =
    String c (TrimSuffix (String d u) "/").
Proof.
  unfold TrimSuffix. rewrite HasSuffix_slash_cons.
  destruct (HasSuffix (String d u) "/"); [|reflexivity].
  simpl. now rewrite Nat.sub_0_r.
Qed.

Lemma TrimSuffix_slash (s : string) :
  TrimSuffix s "/" = strip_trailing_slash s.
Proof.
  induction s as [|c t IH]; [reflexivity|].
  destruct t as [|d u].
  - unfold TrimSuffix, HasSuffix. simpl.
    rewrite !andb_true_r. now destruct (Ascii.eqb c "/").
  - rewrite TrimSuffix_slash_cons, IH.
    cbn [strip_trailing_slash String.eqb]. now rewrite andb_false_r.
Qed.

Lemma cut_Some (c : ascii) (s a b : string) :
  cut c s = Some (a, b) -> s = a +:+ String c b /\ occurs c a = false.
Proof.
  revert a; induction s as [|d s IH]; simpl; intros a H; [discriminate|].
  destruct (Ascii.eqb d c) eqn:Hd.
  - apply Ascii.eqb_eq in Hd as ->. now inversion H.
  - destruct (cut c s) as [[a' b']|]; [|discriminate].
    inversion H; subst. destruct (IH a' eq_refl) as [-> Ha].
    split; [reflexivity|]. simpl. now rewrite Hd, Ha.
Qed.

Lemma cut_None (c : ascii) (s : string) :
  cut c s = None -> occurs c s = false.
Proof.
  induction s as [|d s IH]; simpl; intros H; [reflexivity|].
  destruct (Ascii.eqb d c); [discriminate|].
  destruct (cut c s) as [[a b]|]; [discriminate|]. now apply IH.
Qed.

Lemma cut_app (c : ascii) (a b : string) :
  occurs c a = false -> cut c (a +:+ String c b) = Some (a, b).
Proof.
  induction a as [|d a IH]; simpl occurs; intros H.
  - rewrite str_app_nil_l. simpl. now rewrite Ascii.eqb_refl.
  - apply orb_false_iff in H as [Hd Ha].
    rewrite str_app_cons. simpl. now rewrite Hd, (IH Ha).
Qed.

Lemma SplitN_2_whole (s : string) :
  occurs "/" s = false -> SplitN s "/" 2 = [s].
Proof.
  intros H. unfold SplitN. cbv zeta.
  change (2 =? 0) with false. change (2 <? 0) with false. cbv iota.
  pose proof (len_nonneg s).
  destruct (Z.ltb_spec (len s + 1) 2).
  - now replace (Z.to_nat (len s + 1 - 1)) with 0%nat by lia.
  - change (Z.to_nat (2 - 1)) with 1%nat. cbn [genSplitLoop].
    now rewrite (Index_char_absent _ _ H).
Qed.

Lemma SplitN_2_parts (a b : string) :
  occurs "/" a = false -> SplitN (a +:+ String "/" b) "/" 2 = [a; b].
Proof.
  intros H. unfold SplitN. cbv zeta.
  change (2 =? 0) with false. change (2 <? 0) with false. cbv iota.
  pose proof (len_nonneg a). pose proof (len_nonneg b).
  destruct (Z.ltb_spec (len (a +:+ String "/" b) + 1) 2) as [Hlt|_].
  { rewrite len_app, len_cons in Hlt. lia. }
  change (Z.to_nat (2 - 1)) with 1%nat. cbn [genSplitLoop].
  rewrite (Index_char_first _ _ _ H).
  destruct (Z.ltb_spec (len a) 0); [lia|].
  unfold len. rewrite Nat2Z.id, str_take_app. f_equal. f_equal.
  change (String "/" b) with ("/" +:+ b).
  rewrite <- str_app_assoc.
  replace (String.length a + String.length "/")%nat
    with (String.length (a +:+ "/")) by now rewrite str_length_app.
  apply str_drop_app.
Qed.

Lemma Parse_matches_reference (s : string) :
  ParsePackageString s = Some (go_result (parsePackageString s)).
Proof.
  unfold ParsePackageString, parsePackageString.
  rewrite TrimSuffix_slash.
  destruct (strip_trailing_slash s) as [|c rest]; [reflexivity|].
  rewrite HasPrefix_char.
  destruct (Ascii.eqb c "@") eqn:Hc; [|reflexivity].
  apply Ascii.eqb_eq in Hc as ->.
  pose proof (slice_from_app "@" rest) as Hs.
  change (len "@") with 1 in Hs. change ("@" +:+ rest) with (String "@" rest) in Hs.
  rewrite Hs. cbn [mbind option_bind].
  destruct (cut "/" rest) as [[a b]|] eqn:Hcut.
  - apply cut_Some in Hcut as [-> Ha].
    now rewrite (SplitN_2_parts _ _ Ha).
  - apply cut_None in Hcut.
    now rewrite (SplitN_2_whole _ Hcut).
Qed.

(** C6. [ParsePackageString] is the reference algorithm on every input:
    one trailing [/] stripped, then [@repo/path] split at the first [/],
    a failure when [@] is followed by no [/], and the whole string as
    the package path otherwise.  [@foo] and [@foo/] fail;
    [@foo/bar/baz] gives [foo] and [bar/baz]. *)
Theorem ParsePackageString_reference :
  (forall s : string,
      ParsePackageString s = Some (go_result (parsePackageString s))) /\
  ParsePackageString "@foo"
    = Some (go_result (InvalidPackageString "@foo")) /\
  ParsePackageString "@foo/"
    = Some (go_result (InvalidPackageString "@foo")) /\
  ParsePackageString "@foo/bar/baz"
    = Some (go_result (Parsed "foo" "bar/baz")).
Proof.
  split; [exact Parse_matches_reference|].
  rewrite !Parse_matches_reference. repeat split.
Qed.

End PackageStrings.

(** ** Building and parsing back *)
Section RoundTrip.

Lemma strip_trailing_slash_keep (p : string) :
  ends_with "/" p = false -> strip_trailing_slash p = p.
Proof.
  induction p as [|d t IH]; [reflexivity|]. simpl.
  destruct (String.eqb_spec t "") as [->|Ht]; intros H.
  - now rewrite H.
  - now rewrite andb_false_r, (IH H).
Qed.

Lemma strip_trailing_slash_app (x p : string) :
  p <> "" -> strip_trailing_slash (x +:+ p) = x +:+ strip_trailing_slash p.
Proof.
  intros Hp. induction x as [|c x IH]; [reflexivity|].
  rewrite !str_app_cons. simpl.
  destruct (String.eqb_spec (x +:+ p) "") as [He|_].
  - destruct x; [now rewrite str_app_nil_l in He | discriminate].
  - now rewrite andb_false_r, IH.
Qed.

(** C2, as the code has it.  Parsing a built package string gives the
    pair back when the package path is not empty and does not end in
    [/], the repository name holds no [/], and a path built without a
    repository name does not start with [@]. *)
Theorem ParsePackageString_BuildPackageString (r p : string) :
  p <> "" ->
  occurs "/" r = false ->
  ends_with "/" p = false ->
  (r = "" -> starts_with "@" p = false) ->
  ParsePackageString (BuildPackageString r p) = Some (r, p, None).
Proof.
  intros Hp Hr Hend Hat.
  rewrite Parse_matches_reference.
  unfold BuildPackageString, parsePackageString.
  destruct (String.eqb_spec r "") as [->|Hne]; cbn [negb].
  - rewrite (strip_trailing_slash_keep _ Hend).
    destruct p as [|c rest]; [contradiction|].
    specialize (Hat eq_refl). simpl in Hat. now rewrite Hat.
  - change ("@" +:+ r +:+ "/" +:+ p)
      with (String "@" (r +:+ String "/" p)).
    change (String "@" (r +:+ String "/" p))
      with (String "@" (r +:+ ("/" +:+ p))).
    rewrite <- str_app_assoc, <- str_app_cons.
    rewrite (strip_trailing_slash_app _ _ Hp),
      (strip_trailing_slash_keep _ Hend).
    rewrite str_app_cons, str_app_assoc.
    change (String "@" (r +:+ "/" +:+ p))
      with (String "@" (r +:+ String "/" p)).
    cbn [Ascii.eqb Bool.eqb]. cbv iota.
    change (r +:+ "/" +:+ p) with (r +:+ String "/" p).
    now rewrite (cut_app _ _ _ Hr).
Qed.

Lemma ParsePackageString_BuildPackageString_witness :
  ParsePackageString (BuildPackageString "foo" "bar/baz")
    = Some ("foo", "bar/baz", None) /\
  ParsePackageString (BuildPackageString "" "bar/baz")
    = Some ("", "bar/baz", None).
Proof.
  split.
  - apply (ParsePackageString_BuildPackageString "foo" "bar/baz");
      [discriminate | reflexivity | reflexivity | discriminate].
  - apply (ParsePackageString_BuildPackageString "" "bar/baz");
      [discriminate | reflexivity | reflexivity | reflexivity].
Defined.

(** C2 as stated fails: a package path that ends in [/] loses the [/]. *)
Lemma ParsePackageString_BuildPackageString_counterexample :
  ~ (forall r p : string,
        p <> "" ->
        ParsePackageString (BuildPackageString r p) = Some (r, p, None)).
Proof.
  intros H. specialize (H "" "a/" ltac:(discriminate)).
  vm_compute in H. discriminate H.
Qed.

(** Each of the three side conditions is needed. *)
Lemma BuildPackageString_side_conditions :
  ParsePackageString (BuildPackageString "foo" "bar/")
    = Some ("foo", "bar", None) /\
  ParsePackageString (BuildPackageString "a/b" "c")
    = Some ("a", "b/c", None) /\
  ParsePackageString (BuildPackageString "" "@x/y")
    = Some ("x", "y", None) /\
  ParsePackageString (BuildPackageString "foo" "/")
    = Some ("foo", "", None).
Proof. repeat split. Qed.

End RoundTrip.

(** ** Comparing versions *)
Section Versions.

Lemma wrap64_id (z : Z) : is_int64 z -> wrap64 z = z.
Proof.
  unfold is_int64, int64_min, int64_max, wrap64. intros H.
  rewrite Z.mod_small; lia.
Qed.

Lemma wrap64_range (z : Z) : is_int64 (wrap64 z).
Proof.
  unfold is_int64, int64_min, int64_max, wrap64.
  pose proof (Z.mod_pos_bound (z + 2 ^ 63) (2 ^ 64) ltac:(lia)). lia.
Qed.

(** Wrapping loses nothing modulo [2^64]. *)
Lemma wrap64_eqm (z : Z) : exists k, wrap64 z = z + 2 ^ 64 * k.
Proof.
  unfold wrap64. exists (- ((z + 2 ^ 63) / 2 ^ 64)).
  pose proof (Z.div_mod (z + 2 ^ 63) (2 ^ 64) ltac:(lia)). lia.
Qed.

Lemma wrap64_unique (z w : Z) :
  is_int64 w -> (exists k, w = z + 2 ^ 64 * k) -> wrap64 z = w.
Proof.
  intros Hw [k ->]. destruct (wrap64_eqm z) as [j Hj].
  pose proof (wrap64_range z) as Hr. rewrite Hj in *.
  unfold is_int64, int64_min, int64_max in *. lia.
Qed.

Lemma sub64_zero (a b : Z) :
  is_int64 a -> is_int64 b -> (sub64 a b = 0 <-> a = b).
Proof.
  intros Ha Hb. unfold sub64. split.
  - intros H. destruct (wrap64_eqm (a - b)) as [k Hk]. rewrite H in Hk.
    unfold is_int64, int64_min, int64_max in *. lia.
  - intros ->. now rewrite Z.sub_diag.
Qed.

Lemma sub64_swap (a b : Z) : sub64 b a = wrap64 (- sub64 a b).
Proof.
  unfold sub64. symmetry. apply wrap64_unique; [apply wrap64_range|].
  destruct (wrap64_eqm (a - b)) as [k ->].
  destruct (wrap64_eqm (b - a)) as [j ->].
  exists (j + k). lia.
Qed.

Lemma wrap64_opp (r : Z) :
  is_int64 r -> r <> int64_min -> wrap64 (- r) = - r.
Proof.
  intros Hr Hmin. apply wrap64_id.
  unfold is_int64, int64_min, int64_max in *. lia.
Qed.

Lemma VerCmp_range (a b : Version) : is_int64 (VerCmp a b).
Proof.
  unfold VerCmp.
  repeat match goal with
         | |- context [negb (?r =? 0)] => destruct (negb (r =? 0))
         end;
    try apply wrap64_range.
  unfold is_int64, int64_min, int64_max. lia.
Qed.

Lemma VerCmp_refl (v : Version) : VerCmp v v = 0.
Proof. unfold VerCmp, sub64. now rewrite !Z.sub_diag. Qed.

Lemma sub64_swap_zero (x y : Z) :
  is_int64 x -> is_int64 y -> (sub64 y x =? 0) = (sub64 x y =? 0).
Proof.
  intros Hx Hy.
  destruct (Z.eqb_spec (sub64 x y) 0) as [E|N];
    destruct (Z.eqb_spec (sub64 y x) 0) as [E'|N']; try reflexivity.
  - apply (proj1 (sub64_zero x y Hx Hy)) in E.
    symmetry in E. apply (proj2 (sub64_zero y x Hy Hx)) in E. contradiction.
  - apply (proj1 (sub64_zero y x Hy Hx)) in E'.
    symmetry in E'. apply (proj2 (sub64_zero x y Hx Hy)) in E'.
    contradiction.
Qed.

(** Swapping the arguments negates the result, in [int64]. *)
Lemma VerCmp_swap (a b : Version) :
  valid_Version a -> valid_Version b ->
  VerCmp b a = wrap64 (- VerCmp a b).
Proof.
  intros (Ha1 & Ha2 & Ha3) (Hb1 & Hb2 & Hb3). unfold VerCmp.
  rewrite (sub64_swap_zero _ _ Ha1 Hb1), (sub64_swap_zero _ _ Ha2 Hb2),
    (sub64_swap_zero _ _ Ha3 Hb3).
  destruct (sub64 (Major a) (Major b) =? 0); simpl; [|apply sub64_swap].
  destruct (sub64 (Minor a) (Minor b) =? 0); simpl; [|apply sub64_swap].
  destruct (sub64 (Revision a) (Revision b) =? 0); simpl;
    [reflexivity | apply sub64_swap].
Qed.

Lemma VerCmp_opposite (a b : Version) :
  valid_Version a -> valid_Version b ->
  VerCmp a b <> int64_min ->
  opposite_sign (VerCmp a b) (VerCmp b a).
Proof.
  intros Ha Hb Hmin. unfold opposite_sign.
  rewrite (VerCmp_swap a b Ha Hb),
    (wrap64_opp _ (VerCmp_range a b) Hmin), Z.sgn_opp.
  lia.
Qed.

(** Without negative components no subtraction wraps. *)
Lemma sub64_nonneg (x y : Z) :
  is_int64 x -> is_int64 y -> 0 <= x -> 0 <= y ->
  sub64 x y <> int64_min.
Proof.
  intros Hx Hy Hx0 Hy0. unfold sub64. rewrite wrap64_id;
    unfold is_int64, int64_min, int64_max in *; lia.
Qed.

Lemma VerCmp_nonneg_not_min (a b : Version) :
  valid_Version a -> valid_Version b ->
  nonneg_Version a -> nonneg_Version b ->
  VerCmp a b <> int64_min.
Proof.
  intros (Ha1 & Ha2 & Ha3) (Hb1 & Hb2 & Hb3) (Pa1 & Pa2 & Pa3)
    (Pb1 & Pb2 & Pb3).
  unfold VerCmp.
  repeat match goal with
         | |- context [negb (?r =? 0)] => destruct (negb (r =? 0))
         end;
    try (now apply sub64_nonneg).
  unfold int64_min. lia.
Qed.

(** C5, as the code has it.  [VerCmp v v] is zero; [VerCmp a b] is zero
    exactly when [VerCmp b a] is; and the two have opposite signs
    whenever [VerCmp a b] is not the least [int64], which is so, in
    particular, when no component is negative. *)
Theorem VerCmp_antisymmetric :
  (forall v : Version, VerCmp v v = 0) /\
  (forall a b : Version,
      valid_Version a -> valid_Version b ->
      (VerCmp a b = 0 <-> VerCmp b a = 0) /\
      (VerCmp a b <> int64_min ->
       opposite_sign (VerCmp a b) (VerCmp b a)) /\
      (nonneg_Version a -> nonneg_Version b ->
       opposite_sign (VerCmp a b) (VerCmp b a))).
Proof.
  split; [exact VerCmp_refl|].
  intros a b Ha Hb. split; [|split].
  - split; intros H.
    + rewrite (VerCmp_swap a b Ha Hb), H. reflexivity.
    + rewrite (VerCmp_swap b a Hb Ha), H. reflexivity.
  - now apply VerCmp_opposite.
  - intros Pa Pb. apply VerCmp_opposite; try assumption.
    now apply VerCmp_nonneg_not_min.
Qed.

Lemma VerCmp_antisymmetric_witness :
  VerCmp (mkVersion 1 4 9999) (mkVersion 1 4 9999) = 0 /\
  opposite_sign (VerCmp (mkVersion 1 4 9999) (mkVersion 1 5 0))
                (VerCmp (mkVersion 1 5 0) (mkVersion 1 4 9999)).
Proof.
  split.
  - apply (proj1 VerCmp_antisymmetric).
  - apply (proj2 VerCmp_antisymmetric (mkVersion 1 4 9999) (mkVersion 1 5 0));
      unfold valid_Version, nonneg_Version, is_int64, int64_min, int64_max;
      simpl; lia.
Defined.

(** C5 as stated fails: subtracting from the least [int64] wraps, and
    both comparisons come out negative. *)
Lemma VerCmp_antisymmetric_counterexample :
  ~ (forall a b : Version,
        valid_Version a -> valid_Version b ->
        opposite_sign (VerCmp a b) (VerCmp b a)).
Proof.
  intros H.
  specialize (H (mkVersion (- 2 ^ 63) 0 0) (mkVersion 0 0 0)).
  assert (Hv : forall x, - 2 ^ 63 <= x <= 0 -> is_int64 x)
    by (unfold is_int64, int64_min, int64_max; lia).
  unfold valid_Version in H. simpl in H.
  specialize (H ltac:(repeat split; apply Hv; lia)
                ltac:(repeat split; apply Hv; lia)).
  vm_compute in H. discriminate H.
Qed.

End Versions.

(** ** The fetch cache *)
Section FetchCache.
Import cli.

Variable env : Env.

Lemma gitClone_dl (url branch dest : string) (st : State) :
  dl (snd (gitClone env url branch dest st)) = dl st.
Proof.
  unfold gitClone, bind, ShellCommand, RemoveAll, ret. simpl.
  destruct (snd (os_ShellCommand env _ _)); simpl; [reflexivity|].
  destruct (os_RemoveAll env _ _); reflexivity.
Qed.

(** [gitClone] runs the clone command first, and nothing before it. *)
Lemma gitClone_calls (url branch dest : string) (st : State) :
  exists more,
    calls (snd (gitClone env url branch dest st)) =
      more ++ CallShellCommand (clone_command url branch dest) :: calls st /\
    clone_count more = 0%nat.
Proof.
  unfold gitClone, bind, ShellCommand, RemoveAll, ret. simpl.
  destruct (snd (os_ShellCommand env _ _)); simpl.
  - now exists [].
  - destruct (os_RemoveAll env _ _); simpl;
      now exists [CallRemoveAll (dest +:+ "/.git/")].
Qed.

Lemma is_clone_clone_command (url branch dest : string) :
  is_clone (CallShellCommand (clone_command url branch dest)) = true.
Proof. unfold is_clone, clone_command. apply HasPrefix_app. Qed.

Lemma clone_count_app (h1 h2 : list Call) :
  clone_count (h1 ++ h2) = (clone_count h1 + clone_count h2)%nat.
Proof. unfold clone_count. now rewrite List.filter_app, List.length_app. Qed.

Lemma clone_count_cons (c : Call) (h : list Call) :
  clone_count (c :: h) =
    if is_clone c then S (clone_count h) else clone_count h.
Proof. unfold clone_count. cbn [List.filter]. now destruct (is_clone c). Qed.

Lemma gitClone_clone_count (url branch dest : string) (st : State) :
  clone_count (calls (snd (gitClone env url branch dest st))) =
    S (clone_count (calls st)).
Proof.
  destruct (gitClone_calls url branch dest st) as (more & -> & Hm).
  now rewrite clone_count_app, Hm, clone_count_cons, is_clone_clone_command.
Qed.

(** The four ways through [GetRepo]. *)
Lemma GetRepo_hit (url branch dir : string) (st : State) :
  Repos (dl st) !! (url +:+ branch) = Some dir ->
  GetRepo env url branch st = ((dir, None), st).
Proof. intros H. unfold GetRepo, bind, get_dl, ret. simpl. now rewrite H. Qed.

Lemma GetRepo_TempDir_fails (url branch : string) (st : State) (err : error) :
  Repos (dl st) !! (url +:+ branch) = None ->
  snd (os_TempDir env (calls st) "" "newtrepo") = Some err ->
  GetRepo env url branch st = (("", Some err), after_TempDir st).
Proof.
  intros Hmiss Htmp. unfold GetRepo, bind, get_dl, ret, TempDir. simpl.
  now rewrite Hmiss, Htmp.
Qed.

Lemma GetRepo_clone_fails (url branch : string) (st : State) (err : error) :
  Repos (dl st) !! (url +:+ branch) = None ->
  snd (os_TempDir env (calls st) "" "newtrepo") = None ->
  fst (gitClone env url branch
         (fst (os_TempDir env (calls st) "" "newtrepo")) (after_TempDir st))
    = Some err ->
  GetRepo env url branch st =
    (("", None),
     snd (gitClone env url branch
            (fst (os_TempDir env (calls st) "" "newtrepo"))
            (after_TempDir st))).
Proof.
  intros Hmiss Htmp Hclone.
  unfold GetRepo, bind, get_dl, ret, TempDir. simpl.
  rewrite Hmiss, Htmp. fold (after_TempDir st). now rewrite Hclone.
Qed.

Lemma GetRepo_clone_ok (url branch : string) (st : State) :
  Repos (dl st) !! (url +:+ branch) = None ->
  snd (os_TempDir env (calls st) "" "newtrepo") = None ->
  fst (gitClone env url branch
         (fst (os_TempDir env (calls st) "" "newtrepo")) (after_TempDir st))
    = None ->
  GetRepo env url branch st =
    ((fst (os_TempDir env (calls st) "" "newtrepo"), None),
     {| dl := {| Repos :=
                   <[url +:+ branch :=
                       fst (os_TempDir env (calls st) "" "newtrepo")]>
                     (Repos (dl st)) |};
        calls :=
          calls (snd (gitClone env url branch
                        (fst (os_TempDir env (calls st) "" "newtrepo"))
                        (after_TempDir st))) |}).
Proof.
  intros Hmiss Htmp Hclone.
  unfold GetRepo, bind, get_dl, ret, TempDir, set_Repos. simpl.
  rewrite Hmiss, Htmp. fold (after_TempDir st). rewrite Hclone. simpl.
  now rewrite gitClone_dl.
Qed.

(** Whatever [GetRepo] leaves recorded under the key is what it
    returned, with no error. *)
Lemma GetRepo_recorded (url branch dir : string) (st : State) :
  Repos (dl (snd (GetRepo env url branch st))) !! (url +:+ branch)
    = Some dir ->
  fst (GetRepo env url branch st) = (dir, None).
Proof.
  destruct (Repos (dl st) !! (url +:+ branch)) as [d|] eqn:Hlk.
  - rewrite (GetRepo_hit _ _ _ _ Hlk). simpl. congruence.
  - destruct (snd (os_TempDir env (calls st) "" "newtrepo")) as [e|] eqn:Htmp.
    + rewrite (GetRepo_TempDir_fails _ _ _ _ Hlk Htmp). simpl. congruence.
    + destruct (fst (gitClone env url branch
                       (fst (os_TempDir env (calls st) "" "newtrepo"))
                       (after_TempDir st))) as [e|] eqn:Hc.
      * rewrite (GetRepo_clone_fails _ _ _ _ Hlk Htmp Hc). simpl.
        rewrite gitClone_dl. simpl. congruence.
      * rewrite (GetRepo_clone_ok _ _ _ Hlk Htmp Hc). simpl.
        rewrite lookup_insert_eq. congruence.
Qed.

(** A key that was absent and is recorded afterwards was cloned, once,
    into the directory recorded. *)
Lemma GetRepo_recorded_fresh (url branch dir : string) (st : State) :
  Repos (dl st) !! (url +:+ branch) = None ->
  Repos (dl (snd (GetRepo env url branch st))) !! (url +:+ branch)
    = Some dir ->
  clone_count (calls (snd (GetRepo env url branch st)))
    = S (clone_count (calls st)) /\
  In (CallShellCommand (clone_command url branch dir))
     (calls (snd (GetRepo env url branch st))).
Proof.
  intros Hlk.
  destruct (snd (os_TempDir env (calls st) "" "newtrepo")) as [e|] eqn:Htmp.
  { rewrite (GetRepo_TempDir_fails _ _ _ _ Hlk Htmp). simpl. congruence. }
  destruct (fst (gitClone env url branch
                   (fst (os_TempDir env (calls st) "" "newtrepo"))
                   (after_TempDir st))) as [e|] eqn:Hc.
  { rewrite (GetRepo_clone_fails _ _ _ _ Hlk Htmp Hc). simpl.
    rewrite gitClone_dl. simpl. congruence. }
  rewrite (GetRepo_clone_ok _ _ _ Hlk Htmp Hc). simpl.
  rewrite lookup_insert_eq. intros [= <-]. split.
  - now rewrite gitClone_clone_count.
  - destruct (gitClone_calls url branch
                (fst (os_TempDir env (calls st) "" "newtrepo"))
                (after_TempDir st)) as (more & -> & _).
    apply List.in_or_app. right. now left.
Qed.

(** C3. After a first [GetRepo] that cloned and recorded the directory,
    a second [GetRepo] with the same arguments returns the same path and
    leaves the state as it is, calls included: over the two calls the
    clone command ran once. *)
Theorem GetRepo_second_call_cached (url branch dir : string) (st : State) :
  Repos (dl st) !! (url +:+ branch) = None ->
  Repos (dl (snd (GetRepo env url branch st))) !! (url +:+ branch)
    = Some dir ->
  fst (GetRepo env url branch st) = (dir, None) /\
  GetRepo env url branch (snd (GetRepo env url branch st))
    = ((dir, None), snd (GetRepo env url branch st)) /\
  clone_count
    (calls (snd (GetRepo env url branch (snd (GetRepo env url branch st)))))
    = S (clone_count (calls st)).
Proof.
  intros Hmiss Hrec. split; [|split].
  - now apply GetRepo_recorded.
  - now apply GetRepo_hit.
  - rewrite (GetRepo_hit _ _ _ _ Hrec). simpl.
    now apply (GetRepo_recorded_fresh _ _ _ _ Hmiss Hrec).
Qed.

(** C4. When the key is absent and either the temporary directory
    cannot be made or the clone fails, [GetRepo] leaves [Repos] as it
    was, the key still absent; a later [GetRepo] for the key then asks
    for a temporary directory again and, if it gets one, runs the clone
    command again. *)
Theorem GetRepo_failure_keeps_cache (url branch : string) (st : State) :
  Repos (dl st) !! (url +:+ branch) = None ->
  (snd (os_TempDir env (calls st) "" "newtrepo") <> None \/
   (snd (os_TempDir env (calls st) "" "newtrepo") = None /\
    fst (gitClone env url branch
           (fst (os_TempDir env (calls st) "" "newtrepo"))
           (after_TempDir st)) <> None)) ->
  Repos (dl (snd (GetRepo env url branch st))) = Repos (dl st) /\
  Repos (dl (snd (GetRepo env url branch st))) !! (url +:+ branch) = None /\
  forall st2 : State,
    Repos (dl st2) = Repos (dl (snd (GetRepo env url branch st))) ->
    exists more,
      calls (snd (GetRepo env url branch st2))
        = more ++ CallTempDir "" "newtrepo" :: calls st2 /\
      (snd (os_TempDir env (calls st2) "" "newtrepo") = None ->
       exists more',
         more = more' ++
           [CallShellCommand
              (clone_command url branch
                 (fst (os_TempDir env (calls st2) "" "newtrepo")))]).
Proof.
  intros Hmiss Hfail.
  assert (Hsame : Repos (dl (snd (GetRepo env url branch st)))
                  = Repos (dl st)).
  { destruct Hfail as [Htmp | [Htmp Hc]].
    - destruct (snd (os_TempDir env (calls st) "" "newtrepo")) as [e|] eqn:E;
        [|contradiction].
      now rewrite (GetRepo_TempDir_fails _ _ _ _ Hmiss E).
    - destruct (fst (gitClone env url branch
                       (fst (os_TempDir env (calls st) "" "newtrepo"))
                       (after_TempDir st))) as [e|] eqn:E; [|contradiction].
      rewrite (GetRepo_clone_fails _ _ _ _ Hmiss Htmp E). simpl.
      now rewrite gitClone_dl. }
  split; [exact Hsame|]. split; [now rewrite Hsame|].
  intros st2 Hst2.
  assert (Hmiss2 : Repos (dl st2) !! (url +:+ branch) = None)
    by now rewrite Hst2, Hsame.
  destruct (snd (os_TempDir env (calls st2) "" "newtrepo")) as [e|] eqn:Htmp.
  { rewrite (GetRepo_TempDir_fails _ _ _ _ Hmiss2 Htmp). simpl.
    exists []. split; [reflexivity | discriminate]. }
  destruct (gitClone_calls url branch
              (fst (os_TempDir env (calls st2) "" "newtrepo"))
              (after_TempDir st2)) as (more & Hcalls & _).
  exists (more ++
            [CallShellCommand
               (clone_command url branch
                  (fst (os_TempDir env (calls st2) "" "newtrepo")))]).
  split; [|intros _; now exists more].
  rewrite <- List.app_assoc. simpl.
  destruct (fst (gitClone env url branch
                   (fst (os_TempDir env (calls st2) "" "newtrepo"))
                   (after_TempDir st2))) as [e|] eqn:Hc.
  - rewrite (GetRepo_clone_fails _ _ _ _ Hmiss2 Htmp Hc). exact Hcalls.
  - rewrite (GetRepo_clone_ok _ _ _ Hmiss2 Htmp Hc). exact Hcalls.
Qed.

(** C10. The key is [url +:+ branch]: two pairs with the same
    concatenation share one entry.  Once [GetRepo url1 branch1] has its
    directory recorded, [GetRepo url2 branch2] returns that directory
    and makes no call; and a directory recorded under a key that was
    absent is the one the clone command for [url1] and [branch1] was
    run on. *)
Theorem GetRepo_key_aliasing
    (url1 branch1 url2 branch2 dir : string) (st : State) :
  url1 +:+ branch1 = url2 +:+ branch2 ->
  Repos (dl (snd (GetRepo env url1 branch1 st))) !! (url1 +:+ branch1)
    = Some dir ->
  fst (GetRepo env url1 branch1 st) = (dir, None) /\
  GetRepo env url2 branch2 (snd (GetRepo env url1 branch1 st))
    = ((dir, None), snd (GetRepo env url1 branch1 st)) /\
  (Repos (dl st) !! (url1 +:+ branch1) = None ->
   In (CallShellCommand (clone_command url1 branch1 dir))
      (calls (snd (GetRepo env url1 branch1 st)))).
Proof.
  intros Hkey Hrec. split; [|split].
  - now apply GetRepo_recorded.
  - apply GetRepo_hit. now rewrite <- Hkey.
  - intros Hmiss. now apply (GetRepo_recorded_fresh _ _ _ _ Hmiss Hrec).
Qed.

(** A failed clone reaches the caller of [GetRepo] as an empty path and
    no error, and [DownloadFile] goes on to copy from the root
    directory. *)
Lemma DownloadFile_after_clone_failure
    (url branch filePath destPath : string) (st : State) (err : error) :
  Repos (dl st) !! (url +:+ branch) = None ->
  snd (os_TempDir env (calls st) "" "newtrepo") = None ->
  fst (gitClone env url branch
         (fst (os_TempDir env (calls st) "" "newtrepo")) (after_TempDir st))
    = Some err ->
  fst (GetRepo env url branch st) = ("", None) /\
  fst (DownloadFile env url branch filePath destPath st) =
    os_CopyFile env
      (calls (snd (GetRepo env url branch st)))
      ("/" +:+ filePath) destPath.
Proof.
  intros Hmiss Htmp Hc. unfold DownloadFile, bind, CopyFile, ret.
  rewrite (GetRepo_clone_fails _ _ _ _ Hmiss Htmp Hc). simpl.
  split; [reflexivity|].
  now destruct (os_CopyFile env _ _ _).
Qed.

End FetchCache.

(** ** The fetch cache on sample machines *)
Section FetchCacheSamples.
Import cli Samples.

Lemma GetRepo_second_call_cached_witness :
  (Repos (dl fresh) !! ("https://example.org/repo.git" +:+ "master") = None /\
   Repos (dl (snd (GetRepo clone_ok "https://example.org/repo.git" "master"
                     fresh)))
     !! ("https://example.org/repo.git" +:+ "master")
     = Some "/tmp/newtrepo1") /\
  (fst (GetRepo clone_ok "https://example.org/repo.git" "master" fresh)
     = ("/tmp/newtrepo1", None) /\
   GetRepo clone_ok "https://example.org/repo.git" "master"
     (snd (GetRepo clone_ok "https://example.org/repo.git" "master" fresh))
     = (("/tmp/newtrepo1", None),
        snd (GetRepo clone_ok "https://example.org/repo.git" "master"
               fresh)) /\
   clone_count
     (calls (snd (GetRepo clone_ok "https://example.org/repo.git" "master"
                    (snd (GetRepo clone_ok "https://example.org/repo.git"
                            "master" fresh)))))
     = S (clone_count (calls fresh))).
Proof.
  split; [split; reflexivity|].
  apply (GetRepo_second_call_cached clone_ok
           "https://example.org/repo.git" "master" "/tmp/newtrepo1" fresh);
    reflexivity.
Defined.

Lemma GetRepo_failure_keeps_cache_witness :
  Repos (dl (snd (GetRepo tempdir_fails "https://example.org/repo.git"
                    "master" fresh))) = Repos (dl fresh) /\
  Repos (dl (snd (GetRepo clone_fails "https://example.org/repo.git"
                    "master" fresh))) = Repos (dl fresh).
Proof.
  split.
  - apply (GetRepo_failure_keeps_cache tempdir_fails
             "https://example.org/repo.git" "master" fresh);
      [reflexivity | left; discriminate].
  - apply (GetRepo_failure_keeps_cache clone_fails
             "https://example.org/repo.git" "master" fresh);
      [reflexivity | right; split; [reflexivity | discriminate]].
Defined.

Lemma GetRepo_key_aliasing_witness :
  fst (GetRepo clone_ok "ab" "c" fresh) = ("/tmp/newtrepo1", None) /\
  GetRepo clone_ok "a" "bc" (snd (GetRepo clone_ok "ab" "c" fresh))
    = (("/tmp/newtrepo1", None), snd (GetRepo clone_ok "ab" "c" fresh)) /\
  (Repos (dl fresh) !! ("ab" +:+ "c") = None ->
   In (CallShellCommand (clone_command "ab" "c" "/tmp/newtrepo1"))
      (calls (snd (GetRepo clone_ok "ab" "c" fresh)))).
Proof.
  apply (GetRepo_key_aliasing clone_ok "ab" "c" "a" "bc" "/tmp/newtrepo1"
           fresh); reflexivity.
Defined.

(** C1, on the code.  With [git clone] failing, [gitClone] reports the
    error, but [GetRepo] returns the empty path and no error, and
    [DownloadFile] then copies [/README.md] and reports success. *)
Theorem GetRepo_clone_failure_not_returned :
  Repos (dl fresh) !! ("https://example.org/repo.git" +:+ "master") = None /\
  fst (gitClone clone_fails "https://example.org/repo.git" "master"
         "/tmp/newtrepo1" (after_TempDir fresh))
    = Some (NewNewtError "exit status 128") /\
  fst (GetRepo clone_fails "https://example.org/repo.git" "master" fresh)
    = ("", None) /\
  DownloadFile clone_fails "https://example.org/repo.git" "master"
    "README.md" "out/README.md" fresh
    = (None,
       {| dl := dl fresh;
          calls :=
            [CallCopyFile "/README.md" "out/README.md";
             CallShellCommand
               "git clone -b master https://example.org/repo.git /tmp/newtrepo1";
             CallTempDir "" "newtrepo"] |}).
Proof. repeat split. Qed.

End FetchCacheSamples.

(** ** Versions: equality and order *)
Section VersionOrder.

Lemma sub64_exact (x y : Z) :
  is_int64 x -> is_int64 y -> 0 <= x -> 0 <= y -> sub64 x y = x - y.
Proof.
  intros Hx Hy Hx0 Hy0. unfold sub64. apply wrap64_id.
  unfold is_int64, int64_min, int64_max in *. lia.
Qed.

(** On versions without negative components [VerCmp] is the difference
    of the first components that differ. *)
Lemma VerCmp_first_difference (a b : Version) :
  valid_Version a -> valid_Version b ->
  nonneg_Version a -> nonneg_Version b ->
  VerCmp a b =
    if negb (Major a =? Major b) then Major a - Major b
    else if negb (Minor a =? Minor b) then Minor a - Minor b
         else Revision a - Revision b.
Proof.
  intros (Ha1 & Ha2 & Ha3) (Hb1 & Hb2 & Hb3) (Pa1 & Pa2 & Pa3)
    (Pb1 & Pb2 & Pb3).
  unfold VerCmp. rewrite !sub64_exact by assumption.
  destruct (Z.eqb_spec (Major a - Major b) 0),
    (Z.eqb_spec (Major a) (Major b)); try lia; simpl; [|reflexivity].
  destruct (Z.eqb_spec (Minor a - Minor b) 0),
    (Z.eqb_spec (Minor a) (Minor b)); try lia; simpl; [|reflexivity].
  destruct (Z.eqb_spec (Revision a - Revision b) 0); simpl; lia.
Qed.

(** [VerCmp] is zero on equal versions only. *)
Theorem VerCmp_zero_iff_eq (a b : Version) :
  valid_Version a -> valid_Version b ->
  (VerCmp a b = 0 <-> a = b).
Proof.
  intros (Ha1 & Ha2 & Ha3) (Hb1 & Hb2 & Hb3). split.
  - unfold VerCmp.
    destruct (Z.eqb_spec (sub64 (Major a) (Major b)) 0) as [E1|]; simpl;
      [|congruence].
    destruct (Z.eqb_spec (sub64 (Minor a) (Minor b)) 0) as [E2|]; simpl;
      [|congruence].
    destruct (Z.eqb_spec (sub64 (Revision a) (Revision b)) 0) as [E3|]; simpl;
      [|congruence].
    intros _.
    apply (proj1 (sub64_zero _ _ Ha1 Hb1)) in E1.
    apply (proj1 (sub64_zero _ _ Ha2 Hb2)) in E2.
    apply (proj1 (sub64_zero _ _ Ha3 Hb3)) in E3.
    destruct a, b; simpl in *; congruence.
  - intros ->. apply VerCmp_refl.
Qed.

Lemma VerCmp_zero_iff_eq_witness :
  VerCmp (mkVersion 1 4 9999) (mkVersion 1 4 9999) = 0 /\
  mkVersion (- 2 ^ 63) 7 0 <> mkVersion 0 7 0.
Proof.
  assert (Hv : forall x y z,
             - 2 ^ 63 <= x < 2 ^ 63 -> - 2 ^ 63 <= y < 2 ^ 63 ->
             - 2 ^ 63 <= z < 2 ^ 63 -> valid_Version (mkVersion x y z))
    by (unfold valid_Version, is_int64, int64_min, int64_max; simpl; lia).
  split.
  - apply (proj2 (VerCmp_zero_iff_eq (mkVersion 1 4 9999) (mkVersion 1 4 9999)
                    ltac:(apply Hv; lia) ltac:(apply Hv; lia))).
    reflexivity.
  - intros H.
    apply (proj2 (VerCmp_zero_iff_eq (mkVersion (- 2 ^ 63) 7 0)
                    (mkVersion 0 7 0)
                    ltac:(apply Hv; lia) ltac:(apply Hv; lia))) in H.
    vm_compute in H. discriminate H.
Defined.

(** On versions without negative components the sign of [VerCmp] is the
    lexicographic order of (major, minor, revision). *)
Theorem VerCmp_lexicographic (a b : Version) :
  valid_Version a -> valid_Version b ->
  nonneg_Version a -> nonneg_Version b ->
  (VerCmp a b < 0 <-> lex_lt a b) /\ (0 < VerCmp a b <-> lex_lt b a).
Proof.
  intros Ha Hb Pa Pb. rewrite (VerCmp_first_difference a b Ha Hb Pa Pb).
  unfold lex_lt.
  destruct (Z.eqb_spec (Major a) (Major b)); simpl; [|lia].
  destruct (Z.eqb_spec (Minor a) (Minor b)); simpl; lia.
Qed.

Lemma VerCmp_lexicographic_witness :
  VerCmp (mkVersion 1 4 9999) (mkVersion 1 5 0) < 0 /\
  0 < VerCmp (mkVersion 2 0 0) (mkVersion 1 99 99).
Proof.
  split.
  - apply (proj1 (VerCmp_lexicographic (mkVersion 1 4 9999) (mkVersion 1 5 0)
                    ltac:(unfold valid_Version, is_int64, int64_min, int64_max;
                          simpl; lia)
                    ltac:(unfold valid_Version, is_int64, int64_min, int64_max;
                          simpl; lia)
                    ltac:(unfold nonneg_Version; simpl; lia)
                    ltac:(unfold nonneg_Version; simpl; lia))).
    unfold lex_lt; simpl; lia.
  - apply (proj2 (VerCmp_lexicographic (mkVersion 2 0 0) (mkVersion 1 99 99)
                    ltac:(unfold valid_Version, is_int64, int64_min, int64_max;
                          simpl; lia)
                    ltac:(unfold valid_Version, is_int64, int64_min, int64_max;
                          simpl; lia)
                    ltac:(unfold nonneg_Version; simpl; lia)
                    ltac:(unfold nonneg_Version; simpl; lia))).
    unfold lex_lt; simpl; lia.
Defined.

(** On versions without negative components "older than" is transitive. *)
Theorem VerCmp_transitive (a b c : Version) :
  valid_Version a -> valid_Version b -> valid_Version c ->
  nonneg_Version a -> nonneg_Version b -> nonneg_Version c ->
  VerCmp a b < 0 -> VerCmp b c < 0 -> VerCmp a c < 0.
Proof.
  intros Ha Hb Hc Pa Pb Pc.
  rewrite (VerCmp_first_difference a b Ha Hb Pa Pb),
    (VerCmp_first_difference b c Hb Hc Pb Pc),
    (VerCmp_first_difference a c Ha Hc Pa Pc).
  destruct (Z.eqb_spec (Major a) (Major b)),
    (Z.eqb_spec (Major b) (Major c)),
    (Z.eqb_spec (Major a) (Major c)); simpl; try lia;
    destruct (Z.eqb_spec (Minor a) (Minor b)),
      (Z.eqb_spec (Minor b) (Minor c)),
      (Z.eqb_spec (Minor a) (Minor c)); simpl; lia.
Qed.

Lemma VerCmp_transitive_witness :
  VerCmp (mkVersion 1 4 9999) (mkVersion 2 0 0) < 0.
Proof.
  assert (Hv : forall x y z,
             0 <= x < 2 ^ 63 -> 0 <= y < 2 ^ 63 -> 0 <= z < 2 ^ 63 ->
             valid_Version (mkVersion x y z)
             /\ nonneg_Version (mkVersion x y z))
    by (unfold valid_Version, nonneg_Version, is_int64, int64_min,
          int64_max; simpl; lia).
  apply (VerCmp_transitive (mkVersion 1 4 9999) (mkVersion 1 5 0)
           (mkVersion 2 0 0));
    try (apply Hv; lia); reflexivity.
Defined.

End VersionOrder.

(** ** Decimal numbers: [%d] and [ParseInt] *)
Section Decimal.
Import GoStrconv GoFmt.

Lemma byte_val_digit_char (d : Z) :
  0 <= d < 10 -> byte_val (digit_char d) = 48 + d.
Proof.
  intros H. unfold byte_val, digit_char.
  rewrite N_ascii_embedding by lia. lia.
Qed.

Lemma is_digit_digit_char (d : Z) : 0 <= d < 10 -> is_digit (digit_char d) = true.
Proof.
  intros H. unfold is_digit. rewrite (byte_val_digit_char _ H).
  apply andb_true_iff. split; apply Z.leb_le; lia.
Qed.

Lemma dec_val_app (a : Z) (s t : string) :
  dec_val a (s +:+ t) = dec_val (dec_val a s) t.
Proof.
  revert a; induction s as [|c s IH]; intros a; [reflexivity|].
  rewrite str_app_cons. simpl. apply IH.
Qed.

Lemma all_digits_app (s t : string) :
  all_digits (s +:+ t) = all_digits s && all_digits t.
Proof.
  induction s as [|c s IH]; [reflexivity|].
  rewrite str_app_cons. simpl. now rewrite IH, andb_assoc.
Qed.

Lemma is_digit_range (c : ascii) :
  is_digit c = true -> 0 <= byte_val c - 48 < 10.
Proof. unfold is_digit. rewrite andb_true_iff, !Z.leb_le. lia. Qed.

Lemma dec_val_ge (s : string) (a : Z) :
  all_digits s = true -> 0 <= a -> a <= dec_val a s.
Proof.
  revert a; induction s as [|c s IH]; simpl; intros a H Ha; [lia|].
  apply andb_true_iff in H as [Hc Hs]. apply is_digit_range in Hc.
  specialize (IH (10 * a + (byte_val c - 48)) Hs ltac:(lia)). lia.
Qed.

Lemma fmt_digits_S (k : nat) (u : Z) (buf : string) :
  fmt_digits (S k) u buf =
    if 10 <=? u
    then fmt_digits k (u / 10) (String (digit_char (u - u / 10 * 10)) buf)
    else String (digit_char u) buf.
Proof. reflexivity. Qed.

(** What the digit loop of [%d] writes in front of the buffer. *)
Lemma fmt_digits_spec (k : nat) (u : Z) (buf : string) :
  0 <= u < 10 ^ Z.of_nat (S k) ->
  exists ds,
    fmt_digits (S k) u buf = ds +:+ buf /\
    all_digits ds = true /\ ds <> "" /\ dec_val 0 ds = u.
Proof.
  revert u buf; induction k as [|k IH]; intros u buf Hu.
  - change (10 ^ Z.of_nat 1) with 10 in Hu.
    rewrite fmt_digits_S. destruct (Z.leb_spec 10 u); [lia|].
    exists (String (digit_char u) ""). repeat split.
    + simpl. now rewrite is_digit_digit_char by lia.
    + discriminate.
    + simpl. rewrite byte_val_digit_char by lia. lia.
  - rewrite fmt_digits_S. destruct (Z.leb_spec 10 u) as [Hge|Hlt].
    + assert (Hnext : 0 <= u / 10 < 10 ^ Z.of_nat (S k)).
      { rewrite (Nat2Z.inj_succ (S k)), Z.pow_succ_r in Hu by lia.
        split; [apply Z.div_pos; lia|].
        apply Z.div_lt_upper_bound; lia. }
      destruct (IH (u / 10)
                  (String (digit_char (u - u / 10 * 10)) buf) Hnext)
        as (ds & Hds & Hall & Hne & Hval).
      pose proof (Z.div_mod u 10 ltac:(lia)) as Hdm.
      pose proof (Z.mod_pos_bound u 10 ltac:(lia)) as Hmod.
      assert (Hd : 0 <= u - u / 10 * 10 < 10) by lia.
      exists (ds +:+ String (digit_char (u - u / 10 * 10)) "").
      repeat split.
      * rewrite Hds, str_app_assoc. reflexivity.
      * rewrite all_digits_app, Hall. simpl.
        now rewrite is_digit_digit_char by lia.
      * destruct ds; [contradiction | discriminate].
      * rewrite dec_val_app, Hval. simpl.
        rewrite byte_val_digit_char by lia. lia.
    + exists (String (digit_char u) ""). repeat split.
      * simpl. now rewrite is_digit_digit_char by lia.
      * discriminate.
      * simpl. rewrite byte_val_digit_char by lia. lia.
Qed.

Lemma digit_of_digit (c : ascii) :
  is_digit c = true -> digit_of c = Some (byte_val c - 48).
Proof. unfold is_digit, digit_of. now intros ->. Qed.

(** [ParseUint]'s loop reads a string of digits as its number, as long
    as it fits a [uint64]. *)
Lemma ParseUint_loop_digits (s : string) (a : Z) :
  all_digits s = true -> 0 <= a -> dec_val a s < 2 ^ 64 ->
  ParseUint_loop s a = (dec_val a s, None).
Proof.
  revert a; induction s as [|c s IH]; simpl; intros a H Ha Hval;
    [reflexivity|].
  apply andb_true_iff in H as [Hc Hs].
  rewrite (digit_of_digit _ Hc). apply is_digit_range in Hc as Hd.
  pose proof (dec_val_ge s (10 * a + (byte_val c - 48)) Hs ltac:(lia)).
  assert (Hcut : cutoff10 = 1844674407370955162) by reflexivity.
  unfold maxUint64.
  destruct (Z.leb_spec 10 (byte_val c - 48)); [lia|].
  destruct (Z.leb_spec cutoff10 a); [lia|].
  rewrite (Z.mod_small (a * 10)) by lia.
  rewrite (Z.mod_small (a * 10 + (byte_val c - 48))) by lia.
  destruct (Z.ltb_spec (a * 10 + (byte_val c - 48)) (a * 10)); [lia|].
  destruct (Z.ltb_spec (2 ^ 64 - 1) (a * 10 + (byte_val c - 48))); [lia|].
  simpl. replace (a * 10) with (10 * a) by lia. now apply IH; try lia.
Qed.

Lemma ParseUint_digits (s : string) :
  all_digits s = true -> s <> "" -> dec_val 0 s < 2 ^ 64 ->
  ParseUint s = (dec_val 0 s, None).
Proof.
  intros Hall Hne Hval. unfold ParseUint.
  destruct (String.eqb_spec s ""); [contradiction|].
  now apply ParseUint_loop_digits.
Qed.

Lemma to_int64_id (z : Z) : - 2 ^ 63 <= z < 2 ^ 63 -> to_int64 z = z.
Proof. intros H. unfold to_int64. rewrite Z.mod_small; lia. Qed.

Lemma is_digit_not (c d : ascii) :
  is_digit c = true -> is_digit d = false -> Ascii.eqb c d = false.
Proof.
  intros Hc Hd. destruct (Ascii.eqb_spec c d) as [->|]; congruence.
Qed.

(** [ParseInt] reads back what [%d] writes. *)
Lemma ParseInt_fmt_d (v : Z) :
  is_int64 v -> ParseInt (fmt_d v) = (v, None).
Proof.
  unfold is_int64, int64_min, int64_max. intros Hv. unfold fmt_d.
  destruct (Z.ltb_spec v 0) as [Hneg|Hpos].
  - destruct (fmt_digits_spec 19 (- v) "") as (ds & -> & Hall & Hne & Hval);
      [simpl; lia|].
    rewrite str_app_nil_r. unfold ParseInt.
    change (Ascii.eqb "-" "-") with true. change (Ascii.eqb "-" "+") with false.
    cbv iota zeta. rewrite (ParseUint_digits _ Hall Hne) by (rewrite Hval; lia).
    cbn [fst snd]. rewrite Hval. cbn [negb andb].
    destruct (Z.ltb_spec (2 ^ 63) (- v)); [lia|]. f_equal.
    destruct (Z.eq_dec v (- 2 ^ 63)) as [->|]; [reflexivity|].
    rewrite (to_int64_id (- v)) by lia. rewrite Z.opp_involutive.
    apply to_int64_id. lia.
  - destruct (fmt_digits_spec 19 v "") as (ds & -> & Hall & Hne & Hval);
      [simpl; lia|].
    rewrite str_app_nil_r. destruct ds as [|c ds]; [contradiction|].
    unfold ParseInt. simpl in Hall. apply andb_true_iff in Hall as [Hc Hds].
    rewrite (is_digit_not c "-" Hc eq_refl), (is_digit_not c "+" Hc eq_refl).
    cbv iota zeta.
    rewrite (ParseUint_digits (String c ds)); try discriminate;
      [|simpl; now rewrite Hc, Hds | rewrite Hval; lia].
    cbn [fst snd]. rewrite Hval. cbn [negb andb].
    destruct (Z.leb_spec (2 ^ 63) v); [lia|]. f_equal.
    apply to_int64_id. lia.
Qed.

(** [%d] writes digits and at most a sign: no dot. *)
Lemma fmt_d_no_dot (v : Z) :
  - 2 ^ 64 < v < 2 ^ 64 -> occurs "." (fmt_d v) = false.
Proof.
  assert (Hdig : forall ds, all_digits ds = true -> occurs "." ds = false).
  { induction ds as [|c ds IH]; simpl; [reflexivity|].
    intros H. apply andb_true_iff in H as [Hc Hds].
    now rewrite (is_digit_not c "." Hc eq_refl), (IH Hds). }
  intros Hv. unfold fmt_d.
  destruct (Z.ltb_spec v 0).
  - destruct (fmt_digits_spec 19 (- v) "") as (ds & -> & Hall & _ & _);
      [simpl; lia|].
    rewrite str_app_nil_r. simpl. now apply Hdig.
  - destruct (fmt_digits_spec 19 v "") as (ds & -> & Hall & _ & _);
      [simpl; lia|].
    rewrite str_app_nil_r. now apply Hdig.
Qed.

End Decimal.

(** ** Splitting at a character *)
Section Splitting.

Lemma genSplitLoop_last (c : ascii) (k : nat) (s : string) :
  occurs c s = false -> genSplitLoop k s (String c "") = [s].
Proof.
  intros H. destruct k as [|k]; [reflexivity|]. cbn [genSplitLoop].
  now rewrite (Index_char_absent _ _ H).
Qed.

Lemma genSplitLoop_cons (c : ascii) (k : nat) (pre rest : string) :
  occurs c pre = false ->
  genSplitLoop (S k) (pre +:+ String c rest) (String c "") =
    pre :: genSplitLoop k rest (String c "").
Proof.
  intros H. cbn [genSplitLoop]. rewrite (Index_char_first _ _ _ H).
  pose proof (len_nonneg pre).
  destruct (Z.ltb_spec (len pre) 0); [lia|].
  unfold len. rewrite Nat2Z.id, str_take_app. f_equal. f_equal.
  change (String c rest) with (String c "" +:+ rest).
  rewrite <- str_app_assoc.
  replace (String.length pre + String.length (String c ""))%nat
    with (String.length (pre +:+ String c "")) by now rewrite str_length_app.
  apply str_drop_app.
Qed.

Lemma Split_fuel (s sep : string) :
  Split s sep = genSplitLoop (String.length s) s sep.
Proof.
  unfold Split, SplitN. cbv zeta.
  change (-1 =? 0) with false. change (-1 <? 0) with true. cbv iota.
  rewrite Z.ltb_irrefl. f_equal. unfold len. lia.
Qed.

Lemma count_absent (c : ascii) (s : string) :
  occurs c s = false -> count c s = 0%nat.
Proof.
  induction s as [|d s IH]; simpl; intros H; [reflexivity|].
  apply orb_false_iff in H as [-> Hs]. now apply IH.
Qed.

Lemma count_app (c : ascii) (s t : string) :
  count c (s +:+ t) = (count c s + count c t)%nat.
Proof.
  induction s as [|d s IH]; [reflexivity|]. rewrite str_app_cons. simpl.
  destruct (Ascii.eqb d c); now rewrite IH.
Qed.

Lemma count_le_length (c : ascii) (s : string) :
  (count c s <= String.length s)%nat.
Proof.
  induction s as [|d s IH]; simpl; [lia|]. destruct (Ascii.eqb d c); lia.
Qed.

Lemma genSplitLoop_length (c : ascii) (k : nat) (s : string) :
  (count c s <= k)%nat ->
  List.length (genSplitLoop k s (String c "")) = S (count c s).
Proof.
  revert s; induction k as [|k IH]; intros s Hk.
  - simpl. lia.
  - destruct (occurs c s) eqn:Hocc.
    + destruct (occurs_split _ _ Hocc) as (pre & rest & -> & Hpre).
      rewrite (genSplitLoop_cons _ _ _ _ Hpre).
      rewrite count_app in *. simpl in *. rewrite Ascii.eqb_refl in *.
      rewrite (count_absent _ _ Hpre) in *. simpl in *.
      rewrite IH by lia. reflexivity.
    + rewrite (genSplitLoop_last _ _ _ Hocc), (count_absent _ _ Hocc).
      reflexivity.
Qed.

(** [Split] gives one part more than there are separators. *)
Lemma Split_length (c : ascii) (s : string) :
  List.length (Split s (String c "")) = S (count c s).
Proof.
  rewrite Split_fuel. apply genSplitLoop_length, count_le_length.
Qed.

Lemma Split_three (c : ascii) (p0 p1 p2 : string) :
  occurs c p0 = false -> occurs c p1 = false -> occurs c p2 = false ->
  Split (p0 +:+ String c (p1 +:+ String c p2)) (String c "") = [p0; p1; p2].
Proof.
  intros H0 H1 H2. rewrite Split_fuel.
  replace (String.length (p0 +:+ String c (p1 +:+ String c p2)))
    with (S (S (String.length p0 + String.length p1 + String.length p2)))
    by (rewrite str_length_app; simpl; rewrite str_length_app; simpl; lia).
  rewrite (genSplitLoop_cons _ _ _ _ H0), (genSplitLoop_cons _ _ _ _ H1).
  now rewrite (genSplitLoop_last _ _ _ H2).
Qed.

End Splitting.

(** ** Parsing and printing versions *)
Section VersionStrings.
Import GoStrconv GoFmt.

Lemma to_int64_range (z : Z) : is_int64 (to_int64 z).
Proof.
  unfold is_int64, int64_min, int64_max, to_int64.
  pose proof (Z.mod_pos_bound (z + 2 ^ 63) (2 ^ 64) ltac:(lia)). lia.
Qed.

(** A number [ParseInt] accepts is an [int64]. *)
Lemma ParseInt_range (s : string) :
  snd (ParseInt s) = None -> is_int64 (fst (ParseInt s)).
Proof.
  unfold ParseInt. destruct s as [|c t]; [discriminate|]. cbv zeta.
  destruct (snd (ParseUint _)) as [[|]|]; try discriminate;
    repeat match goal with
           | |- context [if ?b then _ else _] => destruct b
           end;
    simpl; try discriminate; intros _; apply to_int64_range.
Qed.

(** Three parts without a dot, each of which [ParseInt] accepts. *)
Lemma ParseVersion_parts (p0 p1 p2 : string) (x0 x1 x2 : Z) :
  occurs "." p0 = false -> occurs "." p1 = false -> occurs "." p2 = false ->
  ParseInt p0 = (x0, None) -> ParseInt p1 = (x1, None) ->
  ParseInt p2 = (x2, None) ->
  ParseVersion (p0 +:+ "." +:+ p1 +:+ "." +:+ p2)
    = Some (mkVersion x0 x1 x2, None).
Proof.
  intros D0 D1 D2 E0 E1 E2. unfold ParseVersion.
  change (p0 +:+ "." +:+ p1 +:+ "." +:+ p2)
    with (p0 +:+ String "." (p1 +:+ String "." p2)).
  rewrite (Split_three "." _ _ _ D0 D1 D2).
  cbn [List.length Z.of_nat]. change (Z.of_nat 3 =? 3) with true.
  cbn [negb]. cbv iota.
  change ([p0; p1; p2] !! 0%nat) with (Some p0).
  change ([p0; p1; p2] !! 1%nat) with (Some p1).
  change ([p0; p1; p2] !! 2%nat) with (Some p2).
  cbn [mbind option_bind]. now rewrite E0, E1, E2.
Qed.

Lemma fmt_d_int64_no_dot (x : Z) : is_int64 x -> occurs "." (fmt_d x) = false.
Proof.
  intros Hx. apply fmt_d_no_dot.
  unfold is_int64, int64_min, int64_max in Hx. lia.
Qed.

(** Printing a version and parsing it back gives the version. *)
Theorem ParseVersion_String (v : Version) :
  valid_Version v -> ParseVersion (Version_String v) = Some (v, None).
Proof.
  intros (H1 & H2 & H3). unfold Version_String.
  rewrite (ParseVersion_parts _ _ _ (Major v) (Minor v) (Revision v));
    try (now apply fmt_d_int64_no_dot); try (now apply ParseInt_fmt_d).
  now destruct v.
Qed.

Lemma ParseVersion_String_witness :
  ParseVersion (Version_String (mkVersion 1 4 9999))
    = Some (mkVersion 1 4 9999, None) /\
  ParseVersion (Version_String (mkVersion (- 2 ^ 63) 0 (2 ^ 63 - 1)))
    = Some (mkVersion (- 2 ^ 63) 0 (2 ^ 63 - 1), None).
Proof.
  split; apply ParseVersion_String;
    unfold valid_Version, is_int64, int64_min, int64_max; simpl; lia.
Defined.

(** A string with other than two dots is refused, with the zero version
    and the error that quotes it. *)
Theorem ParseVersion_wrong_parts (s : string) :
  count "." s <> 2%nat ->
  ParseVersion s = Some (mkVersion 0 0 0, Some (version_parse_error s)).
Proof.
  intros H. unfold ParseVersion.
  change "."%string with (String "." "") at 1. rewrite Split_length.
  destruct (Z.eqb_spec (Z.of_nat (S (count "." s))) 3); [lia|]. reflexivity.
Qed.

Lemma ParseVersion_wrong_parts_witness :
  ParseVersion "1.4" = Some (mkVersion 0 0 0, Some (version_parse_error "1.4"))
  /\ ParseVersion "1.4.0.1"
     = Some (mkVersion 0 0 0, Some (version_parse_error "1.4.0.1")).
Proof.
  split; apply ParseVersion_wrong_parts; simpl; lia.
Defined.

(** What [ParseVersion] accepts has two dots and [int64] components, and
    printing it gives a string that parses to the same version. *)
Theorem ParseVersion_accepts (s : string) (v : Version) :
  ParseVersion s = Some (v, None) ->
  count "." s = 2%nat /\ valid_Version v /\
  ParseVersion (Version_String v) = Some (v, None).
Proof.
  intros H.
  assert (Hboth : count "." s = 2%nat /\ valid_Version v).
  { unfold ParseVersion in H.
    pose proof (Split_length "." s) as Hlen.
    change (String "." "") with "."%string in Hlen.
    destruct (Z.eqb_spec (Z.of_nat (List.length (Split s "."))) 3) as [E|];
      [|discriminate].
    split; [lia|]. cbn [negb] in H.
    destruct (Split s "." !! 0%nat) as [p0|]; [|discriminate].
    destruct (Split s "." !! 1%nat) as [p1|];
      cbn [mbind option_bind] in H.
    2:{ destruct (negb (bool_decide (snd (ParseInt p0) = None)));
          discriminate. }
    destruct (Split s "." !! 2%nat) as [p2|];
      cbn [mbind option_bind] in H.
    2:{ destruct (negb (bool_decide (snd (ParseInt p0) = None)));
          [discriminate|].
        destruct (negb (bool_decide (snd (ParseInt p1) = None)));
          discriminate. }
    destruct (bool_decide_reflect (snd (ParseInt p0) = None)) as [E0|];
      [|discriminate].
    destruct (bool_decide_reflect (snd (ParseInt p1) = None)) as [E1|];
      [|discriminate].
    destruct (bool_decide_reflect (snd (ParseInt p2) = None)) as [E2|];
      [|discriminate].
    cbn [negb Major Minor Revision] in H. injection H as <-.
    repeat split; cbn [Major Minor Revision]; now apply ParseInt_range. }
  destruct Hboth as [Hcount Hvalid].
  split; [exact Hcount|]. split; [exact Hvalid|].
  destruct Hvalid as (H1 & H2 & H3). unfold Version_String.
  rewrite (ParseVersion_parts _ _ _ (Major v) (Minor v) (Revision v));
    try (now apply fmt_d_int64_no_dot); try (now apply ParseInt_fmt_d).
  now destruct v.
Qed.

Lemma ParseVersion_accepts_witness :
  count "." "+1.-4.0009" = 2%nat /\
  valid_Version (mkVersion 1 (-4) 9) /\
  ParseVersion (Version_String (mkVersion 1 (-4) 9))
    = Some (mkVersion 1 (-4) 9, None).
Proof.
  apply (ParseVersion_accepts "+1.-4.0009" (mkVersion 1 (-4) 9)).
  reflexivity.
Defined.

End VersionStrings.

(** ** More on package strings *)
Section PackageStringsMore.

Lemma go_result_Parsed (res : parse_result) (r p : string) :
  go_result res = (r, p, None) -> res = Parsed r p.
Proof. destruct res; simpl; intros H; now inversion H. Qed.

(** One trailing [/] makes no difference to [ParsePackageString]. *)
Theorem ParsePackageString_trailing_slash (s : string) :
  ends_with "/" s = false ->
  ParsePackageString (s +:+ "/") = ParsePackageString s.
Proof.
  intros H. rewrite !Parse_matches_reference. unfold parsePackageString.
  rewrite strip_trailing_slash_app by discriminate.
  change (strip_trailing_slash "/") with "".
  now rewrite str_app_nil_r, (strip_trailing_slash_keep _ H).
Qed.

Lemma ParsePackageString_trailing_slash_witness :
  ParsePackageString ("@foo/bar" +:+ "/") = ParsePackageString "@foo/bar".
Proof. apply ParsePackageString_trailing_slash. reflexivity. Defined.

(** A repository name that [ParsePackageString] returns holds no [/]. *)
Theorem ParsePackageString_repo_no_slash (s r p : string) :
  ParsePackageString s = Some (r, p, None) -> occurs "/" r = false.
Proof.
  rewrite Parse_matches_reference. intros [= H].
  apply go_result_Parsed in H. unfold parsePackageString in H.
  destruct (strip_trailing_slash s) as [|c rest]; [now inversion H|].
  destruct (Ascii.eqb c "@"); [|now inversion H].
  destruct (cut "/" rest) as [[a b]|] eqn:Hcut; [|discriminate].
  inversion H; subst. now apply cut_Some in Hcut.
Qed.

Lemma ParsePackageString_repo_no_slash_witness :
  occurs "/" "foo" = false.
Proof.
  apply (ParsePackageString_repo_no_slash "@foo/bar/baz/" "foo" "bar/baz").
  reflexivity.
Defined.

(** Building from what was parsed gives the string back, less its
    trailing [/], unless the string named an empty repository ([@/...]). *)
Theorem BuildPackageString_ParsePackageString (s r p : string) :
  ParsePackageString s = Some (r, p, None) ->
  r <> "" \/ starts_with "@" (TrimSuffix s "/") = false ->
  BuildPackageString r p = TrimSuffix s "/".
Proof.
  rewrite Parse_matches_reference, TrimSuffix_slash. intros [= H] Hr.
  apply go_result_Parsed in H. unfold parsePackageString in H.
  unfold BuildPackageString.
  destruct (strip_trailing_slash s) as [|c rest].
  - now inversion H.
  - simpl in Hr. destruct (Ascii.eqb_spec c "@") as [->|Hc].
    + destruct (cut "/" rest) as [[a b]|] eqn:Hcut; [|discriminate].
      inversion H; subst. apply cut_Some in Hcut as [-> _].
      destruct Hr as [Hr | Hr]; [|discriminate].
      destruct (String.eqb_spec r ""); [contradiction|]. reflexivity.
    + now inversion H.
Qed.

Lemma BuildPackageString_ParsePackageString_witness :
  BuildPackageString "foo" "bar/baz" = TrimSuffix "@foo/bar/baz/" "/" /\
  BuildPackageString "" "bar/baz" = TrimSuffix "bar/baz" "/".
Proof.
  split.
  - apply (BuildPackageString_ParsePackageString "@foo/bar/baz/");
      [reflexivity | left; discriminate].
  - apply (BuildPackageString_ParsePackageString "bar/baz");
      [reflexivity | right; reflexivity].
Defined.

End PackageStringsMore.

(** ** More on designators *)
Section DesignatorsMore.

Variable proj : ProjectInterface.

Lemma occurs_app (c : ascii) (s t : string) :
  occurs c (s +:+ t) = occurs c s || occurs c t.
Proof.
  induction s as [|d s IH]; [reflexivity|]. rewrite str_app_cons. simpl.
  now rewrite IH, orb_assoc.
Qed.

(** A designator lies inside the string: it starts on an [@], has a name
    of [length - 1] characters, and ends just before a [/]. *)
Theorem FindRepoDesignator_bounds (s : string) (start length : Z) :
  FindRepoDesignator s = Some (start, length) -> start <> -1 ->
  0 <= start /\ 1 <= length /\ start + length < len s /\
  slice s start (start + 1) = Some "@" /\
  slice s (start + length) (start + length + 1) = Some "/".
Proof.
  intros H Hstart.
  destruct (FindRepoDesignator_some _ _ _ H Hstart)
    as (pre & name & post & (-> & _ & _) & -> & ->).
  pose proof (len_nonneg pre). pose proof (len_nonneg name).
  pose proof (len_nonneg post).
  repeat split; try lia.
  - rewrite len_app, len_cons, len_app, len_cons. lia.
  - apply (slice_app pre "@" (name +:+ String "/" post)).
  - pose proof (slice_app (pre +:+ String "@" name) "/" post) as Hs.
    rewrite len_app, len_cons, str_app_assoc in Hs.
    change (len "/") with 1 in Hs. exact Hs.
Qed.

Lemma FindRepoDesignator_bounds_witness :
  0 <= 4 /\ 1 <= 6 /\ 4 + 6 < len "lib/@repoX/src" /\
  slice "lib/@repoX/src" 4 (4 + 1) = Some "@" /\
  slice "lib/@repoX/src" (4 + 6) (4 + 6 + 1) = Some "/".
Proof.
  apply (FindRepoDesignator_bounds "lib/@repoX/src" 4 6);
    [reflexivity | lia].
Defined.

(** The flag tells what happened: [false] comes with the string as it
    was; [true] comes only with a designator whose repository the
    project knows, replaced by the relative path. *)
Theorem ReplaceRepoDesignators_flag (s s' : string) :
  (ReplaceRepoDesignators proj s = Some (s', false) -> s' = s) /\
  (ReplaceRepoDesignators proj s = Some (s', true) ->
   exists pre name post,
     designator_at s pre name post /\
     FindRepoPath proj name <> "" /\
     s' = pre +:+ relativeRepoPath (Path proj) (FindRepoPath proj name)
              +:+ String "/" post).
Proof.
  destruct (designator_cases s) as [Hno | (pre & name & post & Hd)].
  - rewrite (ReplaceRepoDesignators_none _ _ (FindRepoDesignator_none _ Hno)).
    split; intros [= ]; congruence.
  - pose proof Hd as (-> & Hpre & Hname).
    rewrite (ReplaceRepoDesignators_found _ _ _ _ Hpre Hname).
    destruct (String.eqb_spec (FindRepoPath proj name) "") as [E|N];
      split; intros [= ]; try congruence.
    exists pre, name, post. now repeat split.
Qed.

(** When neither the spliced path nor the text after the designator
    holds an [@], a second call finds nothing left to replace. *)
Theorem ReplaceRepoDesignators_twice (s pre name post : string) :
  designator_at s pre name post ->
  FindRepoPath proj name <> "" ->
  occurs "@" (relativeRepoPath (Path proj) (FindRepoPath proj name)) = false ->
  occurs "@" post = false ->
  exists s',
    ReplaceRepoDesignators proj s = Some (s', true) /\
    ReplaceRepoDesignators proj s' = Some (s', false).
Proof.
  intros (-> & Hpre & Hname) Hknown Hrel Hpost.
  exists (pre +:+ relativeRepoPath (Path proj) (FindRepoPath proj name)
              +:+ String "/" post).
  split.
  - rewrite (ReplaceRepoDesignators_found _ _ _ _ Hpre Hname).
    now destruct (String.eqb_spec (FindRepoPath proj name) "").
  - apply ReplaceRepoDesignators_none, FindRepoDesignator_no_at.
    rewrite !occurs_app, Hpre, Hrel. simpl. exact Hpost.
Qed.

End DesignatorsMore.

Lemma ReplaceRepoDesignators_flag_witness :
  "lib/@repoY/sub" = "lib/@repoY/sub" /\
  exists pre name post,
    designator_at "@repoX/sub/path" pre name post /\
    FindRepoPath Samples.projX name <> "" /\
    "repoX/sub/path" =
      pre +:+ relativeRepoPath (Path Samples.projX)
                (FindRepoPath Samples.projX name) +:+ String "/" post.
Proof.
  split.
  - apply (proj1 (ReplaceRepoDesignators_flag Samples.projX
                    "lib/@repoY/sub" "lib/@repoY/sub")).
    reflexivity.
  - apply (proj2 (ReplaceRepoDesignators_flag Samples.projX
                    "@repoX/sub/path" "repoX/sub/path")).
    reflexivity.
Defined.

Lemma ReplaceRepoDesignators_twice_witness :
  exists s',
    ReplaceRepoDesignators Samples.projX "@repoX/sub/path" = Some (s', true)
    /\ ReplaceRepoDesignators Samples.projX s' = Some (s', false).
Proof.
  apply (ReplaceRepoDesignators_twice Samples.projX "@repoX/sub/path"
           "" "repoX" "sub/path");
    [repeat split | discriminate | reflexivity | reflexivity].
Defined.

(** ** One-time warnings *)
Section Warnings.

Variable Arg : Type.
Variable Sprintf : string -> list Arg -> string.

Lemma OneTimeWarning_new (text : string) (args : list Arg)
    (st : WarningState) :
  text ∉ warnings st ->
  OneTimeWarning Arg Sprintf text args st =
    {| warnings := {[text]} ∪ warnings st;
       messages :=
         StatusMessage VERBOSITY_QUIET warning_format (Sprintf text args)
           :: messages st |}.
Proof.
  intros H. unfold OneTimeWarning. now rewrite (bool_decide_eq_false_2 _ H).
Qed.

Lemma OneTimeWarning_seen (text : string) (args : list Arg)
    (st : WarningState) :
  text ∈ warnings st -> OneTimeWarning Arg Sprintf text args st = st.
Proof.
  intros H. unfold OneTimeWarning. now rewrite (bool_decide_eq_true_2 _ H).
Qed.

(** A warning text is reported once: a second call with the same text,
    whatever its arguments, sends nothing and changes nothing. *)
Theorem OneTimeWarning_twice (text : string) (args1 args2 : list Arg)
    (st : WarningState) :
  OneTimeWarning Arg Sprintf text args2
    (OneTimeWarning Arg Sprintf text args1 st)
  = OneTimeWarning Arg Sprintf text args1 st.
Proof.
  destruct (decide (text ∈ warnings st)) as [Hin|Hnot].
  - rewrite (OneTimeWarning_seen text args1 st Hin).
    now apply OneTimeWarning_seen.
  - rewrite (OneTimeWarning_new text args1 st Hnot).
    apply OneTimeWarning_seen. simpl.
    apply elem_of_union_l, elem_of_singleton. reflexivity.
Qed.

Lemma OneTimeWarnings_invariant (ws : list (string * list Arg))
    (st : WarningState) :
  warnings (OneTimeWarnings Arg Sprintf ws st)
    = list_to_set (fst <$> ws) ∪ warnings st /\
  (List.length (messages (OneTimeWarnings Arg Sprintf ws st))
   + size (warnings st)
   = List.length (messages st)
     + size (warnings (OneTimeWarnings Arg Sprintf ws st)))%nat.
Proof.
  revert st; induction ws as [|[text args] ws IH]; intros st.
  - simpl. split; [now rewrite union_empty_l_L | lia].
  - change (OneTimeWarnings Arg Sprintf ((text, args) :: ws) st)
      with (OneTimeWarnings Arg Sprintf ws
              (OneTimeWarning Arg Sprintf text args st)).
    destruct (IH (OneTimeWarning Arg Sprintf text args st)) as [Hw Hm].
    rewrite Hw. cbn [fmap list_fmap fst list_to_set].
    destruct (decide (text ∈ warnings st)) as [Hin|Hnot].
    + rewrite (OneTimeWarning_seen text args st Hin) in Hm, Hw |- *.
      split; [|now rewrite <- Hw].
      apply set_eq; intros x.
      rewrite !elem_of_union, elem_of_singleton.
      intuition (subst; auto).
    + rewrite (OneTimeWarning_new text args st Hnot) in Hm, Hw |- *.
      cbn [warnings messages] in Hm, Hw |- *.
      split.
      * apply set_eq; intros x.
        rewrite !elem_of_union, elem_of_singleton. tauto.
      * rewrite <- Hw.
        rewrite size_union in Hm by now apply disjoint_singleton_l.
        rewrite size_singleton in Hm. simpl in Hm. lia.
Qed.

(** Over any sequence of warnings, starting with none reported, the
    texts registered are the texts of the sequence and one message was
    sent for each distinct text. *)
Theorem OneTimeWarnings_once_each (ws : list (string * list Arg)) :
  warnings (OneTimeWarnings Arg Sprintf ws no_warnings)
    = list_to_set (fst <$> ws) /\
  List.length (messages (OneTimeWarnings Arg Sprintf ws no_warnings))
    = size (warnings (OneTimeWarnings Arg Sprintf ws no_warnings)).
Proof.
  destruct (OneTimeWarnings_invariant ws no_warnings) as [Hw Hm].
  change (warnings no_warnings) with (∅ : gset string) in Hw, Hm.
  change (messages no_warnings) with (@nil StatusCall) in Hm.
  rewrite size_empty in Hm. rewrite union_empty_r_L in Hw.
  split; [exact Hw | simpl in Hm; lia].
Qed.

End Warnings.

(** ** The fetch cache over a run *)
Section FetchCacheRuns.
Import cli.

Variable env : Env.

(** [GetRepo] touches at most the entry of its own key, and only to
    fill it in with the path it returns. *)
Lemma GetRepo_frame (url branch key : string) (st : State) :
  Repos (dl (snd (GetRepo env url branch st))) !! key
    = Repos (dl st) !! key \/
  (key = url +:+ branch /\ Repos (dl st) !! key = None /\
   Repos (dl (snd (GetRepo env url branch st))) !! key
     = Some (fst (fst (GetRepo env url branch st)))).
Proof.
  destruct (Repos (dl st) !! (url +:+ branch)) as [d|] eqn:Hlk.
  { left. now rewrite (GetRepo_hit _ _ _ _ _ Hlk). }
  destruct (snd (os_TempDir env (calls st) "" "newtrepo")) as [e|] eqn:Htmp.
  { left. now rewrite (GetRepo_TempDir_fails _ _ _ _ _ Hlk Htmp). }
  destruct (fst (gitClone env url branch
                   (fst (os_TempDir env (calls st) "" "newtrepo"))
                   (after_TempDir st))) as [e|] eqn:Hc.
  { left. rewrite (GetRepo_clone_fails _ _ _ _ _ Hlk Htmp Hc). simpl.
    now rewrite gitClone_dl. }
  rewrite (GetRepo_clone_ok _ _ _ _ Hlk Htmp Hc). simpl.
  destruct (decide (url +:+ branch = key)) as [<-|Hne].
  - right. now rewrite lookup_insert_eq.
  - left. now rewrite lookup_insert_ne.
Qed.

(** [GetRepo] only adds calls, and each new entry comes with a clone. *)
Lemma GetRepo_calls (url branch : string) (st : State) :
  (exists more,
      calls (snd (GetRepo env url branch st)) = more ++ calls st) /\
  (size (Repos (dl (snd (GetRepo env url branch st))))
   + clone_count (calls st)
   <= size (Repos (dl st))
      + clone_count (calls (snd (GetRepo env url branch st))))%nat.
Proof.
  destruct (Repos (dl st) !! (url +:+ branch)) as [d|] eqn:Hlk.
  { rewrite (GetRepo_hit _ _ _ _ _ Hlk). simpl.
    split; [now exists [] | lia]. }
  destruct (snd (os_TempDir env (calls st) "" "newtrepo")) as [e|] eqn:Htmp.
  { rewrite (GetRepo_TempDir_fails _ _ _ _ _ Hlk Htmp). simpl.
    split; [now exists [CallTempDir "" "newtrepo"]|].
    rewrite clone_count_cons. simpl. lia. }
  pose proof (gitClone_clone_count env url branch
                (fst (os_TempDir env (calls st) "" "newtrepo"))
                (after_TempDir st)) as Hcount.
  destruct (gitClone_calls env url branch
              (fst (os_TempDir env (calls st) "" "newtrepo"))
              (after_TempDir st)) as (more & Hcalls & _).
  unfold after_TempDir in Hcount at 2. simpl in Hcount, Hcalls.
  rewrite clone_count_cons in Hcount. simpl in Hcount.
  destruct (fst (gitClone env url branch
                   (fst (os_TempDir env (calls st) "" "newtrepo"))
                   (after_TempDir st))) as [e|] eqn:Hc.
  - rewrite (GetRepo_clone_fails _ _ _ _ _ Hlk Htmp Hc). simpl.
    rewrite gitClone_dl. simpl. split; [|lia].
    eexists (more ++ [_; _]). rewrite <- List.app_assoc. exact Hcalls.
  - rewrite (GetRepo_clone_ok _ _ _ _ Hlk Htmp Hc). simpl.
    rewrite (map_size_insert_None _ _ _ Hlk). split; [|lia].
    eexists (more ++ [_; _]). rewrite <- List.app_assoc. exact Hcalls.
Qed.

(** [DownloadFile] leaves the state of its [GetRepo], with at most the
    copy added to the calls. *)
Lemma DownloadFile_state (url branch filePath destPath : string)
    (st : State) :
  snd (DownloadFile env url branch filePath destPath st)
    = snd (GetRepo env url branch st) \/
  exists src,
    snd (DownloadFile env url branch filePath destPath st)
      = {| dl := dl (snd (GetRepo env url branch st));
           calls := CallCopyFile src destPath
                      :: calls (snd (GetRepo env url branch st)) |}.
Proof.
  unfold DownloadFile, bind, CopyFile, ret.
  destruct (snd (fst (GetRepo env url branch st))); [now left|].
  right. eexists. simpl. now destruct (os_CopyFile env _ _ _).
Qed.

Lemma step_frame (op : Op) (key dir : string) (st : State) :
  Repos (dl st) !! key = Some dir ->
  Repos (dl (step env op st)) !! key = Some dir.
Proof.
  intros H.
  assert (HG : forall url branch,
             Repos (dl (snd (GetRepo env url branch st))) !! key = Some dir).
  { intros url branch.
    destruct (GetRepo_frame url branch key st) as [-> | (_ & Hn & _)];
      congruence. }
  destruct op as [url branch | url branch filePath destPath]; simpl.
  - apply HG.
  - destruct (DownloadFile_state url branch filePath destPath st)
      as [-> | (src & ->)]; apply HG.
Qed.

Lemma step_calls (op : Op) (st : State) :
  (exists more, calls (step env op st) = more ++ calls st) /\
  (size (Repos (dl (step env op st))) + clone_count (calls st)
   <= size (Repos (dl st)) + clone_count (calls (step env op st)))%nat.
Proof.
  destruct op as [url branch | url branch filePath destPath]; simpl.
  - apply GetRepo_calls.
  - destruct (GetRepo_calls url branch st) as [(more & Hm) Hsz].
    destruct (DownloadFile_state url branch filePath destPath st)
      as [-> | (src & ->)]; simpl.
    + split; [now exists more | exact Hsz].
    + rewrite clone_count_cons. simpl. split; [|exact Hsz].
      exists (CallCopyFile src destPath :: more). now rewrite Hm.
Qed.

Lemma step_all_cloned (op : Op) (st : State) :
  all_cloned st -> all_cloned (step env op st).
Proof.
  intros Hinv.
  assert (HG : forall url branch, all_cloned (snd (GetRepo env url branch st))).
  { intros url branch key dir Hkey.
    destruct (GetRepo_calls url branch st) as [(more & Hm) _].
    destruct (GetRepo_frame url branch key st) as [Hsame | (-> & Hn & Hnew)].
    - rewrite Hsame in Hkey. destruct (Hinv _ _ Hkey) as (u & b & -> & Hin).
      exists u, b. split; [reflexivity|]. rewrite Hm.
      apply List.in_or_app. now right.
    - exists url, branch. split; [reflexivity|].
      now apply (GetRepo_recorded_fresh env _ _ _ _ Hn Hkey). }
  destruct op as [url branch | url branch filePath destPath]; simpl.
  - apply HG.
  - destruct (DownloadFile_state url branch filePath destPath st)
      as [-> | (src & ->)]; [apply HG|].
    intros key dir Hkey. destruct (HG url branch key dir Hkey)
      as (u & b & -> & Hin).
    exists u, b. split; [reflexivity|]. simpl. now right.
Qed.

(** Whatever the caller does next, an entry of the cache stays as it is:
    no call changes or removes it. *)
Theorem run_keeps_entries (ops : list Op) (key dir : string) (st : State) :
  Repos (dl st) !! key = Some dir ->
  Repos (dl (run env ops st)) !! key = Some dir.
Proof.
  revert st; induction ops as [|op ops IH]; intros st H; [exact H|].
  apply (IH (step env op st)). now apply step_frame.
Qed.

Lemma all_cloned_run (ops : list Op) (st : State) :
  all_cloned st -> all_cloned (run env ops st).
Proof.
  revert st; induction ops as [|op ops IH]; intros st H; [exact H|].
  apply (IH (step env op st)). now apply step_all_cloned.
Qed.

(** Starting from an empty cache, every entry a run leaves was cloned:
    its key is the url and branch of a clone command of the run, made
    into the directory recorded. *)
Theorem run_all_cloned (ops : list Op) (st : State) :
  Repos (dl st) = ∅ -> all_cloned (run env ops st).
Proof.
  intros Hempty. apply all_cloned_run.
  intros key dir H. rewrite Hempty, lookup_empty in H. discriminate H.
Qed.

Lemma run_size_from (ops : list Op) (st : State) :
  (size (Repos (dl (run env ops st))) + clone_count (calls st)
   <= size (Repos (dl st)) + clone_count (calls (run env ops st)))%nat.
Proof.
  revert st; induction ops as [|op ops IH]; intros st; [simpl; lia|].
  change (run env (op :: ops) st) with (run env ops (step env op st)).
  specialize (IH (step env op st)).
  destruct (step_calls op st) as [_ Hstep]. lia.
Qed.

(** Starting from an empty cache, a run holds no more entries than it
    ran clone commands. *)
Theorem run_entries_le_clones (ops : list Op) (st : State) :
  Repos (dl st) = ∅ ->
  (size (Repos (dl (run env ops st))) + clone_count (calls st)
   <= clone_count (calls (run env ops st)))%nat.
Proof.
  intros Hempty. pose proof (run_size_from ops st) as H.
  rewrite Hempty, map_size_empty in H. lia.
Qed.

End FetchCacheRuns.

(** ** The fetch cache, call by call *)
Section FetchCacheCalls.
Import cli.

Variable env : Env.

(** When no temporary directory can be made, [GetRepo] and
    [DownloadFile] return that error; nothing is cloned or copied. *)
Theorem TempDir_failure_returned
    (url branch filePath destPath : string) (st : State) (err : error) :
  Repos (dl st) !! (url +:+ branch) = None ->
  snd (os_TempDir env (calls st) "" "newtrepo") = Some err ->
  GetRepo env url branch st = (("", Some err), after_TempDir st) /\
  DownloadFile env url branch filePath destPath st
    = (Some err, after_TempDir st).
Proof.
  intros Hmiss Htmp. split; [now apply GetRepo_TempDir_fails|].
  unfold DownloadFile, bind, ret.
  now rewrite (GetRepo_TempDir_fails _ _ _ _ _ Hmiss Htmp).
Qed.

(** A first [GetRepo] that succeeds makes three calls, in this order: the
    temporary directory, the clone into it, and the removal of its
    [.git] directory; it records the directory and returns it. *)
Theorem GetRepo_success_calls (url branch dir : string) (st : State) :
  Repos (dl st) !! (url +:+ branch) = None ->
  os_TempDir env (calls st) "" "newtrepo" = (dir, None) ->
  snd (os_ShellCommand env (CallTempDir "" "newtrepo" :: calls st)
         (clone_command url branch dir)) = None ->
  os_RemoveAll env
    (CallShellCommand (clone_command url branch dir)
       :: CallTempDir "" "newtrepo" :: calls st)
    (dir +:+ "/.git/") = None ->
  GetRepo env url branch st =
    ((dir, None),
     {| dl := {| Repos := <[url +:+ branch := dir]> (Repos (dl st)) |};
        calls :=
          CallRemoveAll (dir +:+ "/.git/")
            :: CallShellCommand (clone_command url branch dir)
            :: CallTempDir "" "newtrepo" :: calls st |}).
Proof.
  intros Hmiss Htmp Hsh Hrm.
  unfold GetRepo, bind, get_dl, ret, TempDir, gitClone, ShellCommand,
    RemoveAll, set_Repos, bind, ret.
  cbn [fst snd dl calls]. rewrite Hmiss, Htmp. cbn [fst snd dl calls].
  rewrite Hsh. cbn [fst snd dl calls]. rewrite Hrm. reflexivity.
Qed.

(** For a repository already in the cache, [DownloadFile] makes one
    call: the copy of the file from the cached directory, whose result
    it returns. *)
Theorem DownloadFile_cached
    (url branch filePath destPath dir : string) (st : State) :
  Repos (dl st) !! (url +:+ branch) = Some dir ->
  DownloadFile env url branch filePath destPath st =
    (os_CopyFile env (calls st) (dir +:+ "/" +:+ filePath) destPath,
     {| dl := dl st;
        calls := CallCopyFile (dir +:+ "/" +:+ filePath) destPath
                   :: calls st |}).
Proof.
  intros Hhit. unfold DownloadFile, bind, CopyFile, ret.
  rewrite (GetRepo_hit _ _ _ _ _ Hhit). cbn [fst snd].
  now destruct (os_CopyFile env _ _ _).
Qed.



End FetchCacheCalls.

(** ** Runs on sample machines *)
Section FetchCacheRunSamples.
Import cli Samples.

Lemma run_keeps_entries_witness :
  Repos (dl (run clone_ok
               [OpGetRepo "https://example.org/repo.git" "master";
                OpDownloadFile "ab" "c" "README.md" "out/README.md";
                OpGetRepo "a" "bc"]
               (snd (GetRepo clone_ok "ab" "c" fresh))))
    !! "abc" = Some "/tmp/newtrepo1".
Proof. apply run_keeps_entries. reflexivity. Defined.

Lemma run_all_cloned_witness :
  all_cloned
    (run clone_fails
       [OpGetRepo "https://example.org/repo.git" "master";
        OpDownloadFile "https://example.org/repo.git" "dev" "README.md" "out"]
       fresh) /\
  all_cloned
    (run clone_ok
       [OpGetRepo "https://example.org/repo.git" "master";
        OpDownloadFile "https://example.org/repo.git" "dev" "README.md" "out"]
       fresh).
Proof. split; apply run_all_cloned; reflexivity. Defined.

Lemma run_entries_le_clones_witness :
  (size (Repos (dl (run clone_ok
                      [OpGetRepo "https://example.org/repo.git" "master";
                       OpGetRepo "https://example.org/repo.git" "master";
                       OpGetRepo "https://example.org/repo.git" "dev"]
                      fresh)))
   + clone_count (calls fresh)
   <= clone_count
        (calls (run clone_ok
                  [OpGetRepo "https://example.org/repo.git" "master";
                   OpGetRepo "https://example.org/repo.git" "master";
                   OpGetRepo "https://example.org/repo.git" "dev"]
                  fresh)))%nat.
Proof. apply run_entries_le_clones. reflexivity. Defined.

Lemma TempDir_failure_returned_witness :
  GetRepo tempdir_fails "https://example.org/repo.git" "master" fresh
    = (("", Some (NewNewtError "mkdir /tmp/newtrepo1: permission denied")),
       after_TempDir fresh) /\
  DownloadFile tempdir_fails "https://example.org/repo.git" "master"
    "README.md" "out/README.md" fresh
    = (Some (NewNewtError "mkdir /tmp/newtrepo1: permission denied"),
       after_TempDir fresh).
Proof. apply TempDir_failure_returned; reflexivity. Defined.

Lemma GetRepo_success_calls_witness :
  GetRepo clone_ok "https://example.org/repo.git" "master" fresh =
    (("/tmp/newtrepo1", None),
     {| dl := {| Repos :=
                   <["https://example.org/repo.git" +:+ "master"
                       := "/tmp/newtrepo1"]> (Repos (dl fresh)) |};
        calls :=
          [CallRemoveAll ("/tmp/newtrepo1" +:+ "/.git/");
           CallShellCommand
             (clone_command "https://example.org/repo.git" "master"
                "/tmp/newtrepo1");
           CallTempDir "" "newtrepo"] |}).
Proof. apply GetRepo_success_calls; reflexivity. Defined.

Lemma DownloadFile_cached_witness :
  DownloadFile clone_ok "ab" "c" "README.md" "out/README.md"
    (snd (GetRepo clone_ok "ab" "c" fresh))
  = (None,
     {| dl := dl (snd (GetRepo clone_ok "ab" "c" fresh));
        calls := CallCopyFile ("/tmp/newtrepo1" +:+ "/" +:+ "README.md")
                   "out/README.md"
                   :: calls (snd (GetRepo clone_ok "ab" "c" fresh)) |}).
Proof.
  apply (DownloadFile_cached clone_ok "ab" "c" "README.md" "out/README.md"
           "/tmp/newtrepo1").
  reflexivity.
Defined.


End FetchCacheRunSamples.

(** ** Versions written in plain digits *)
Section VersionDigits.
Import GoStrconv.

Lemma all_digits_no_dot (s : string) :
  all_digits s = true -> occurs "." s = false.
Proof.
  induction s as [|c s IH]; simpl; [reflexivity|].
  intros H. apply andb_true_iff in H as [Hc Hs].
  now rewrite (is_digit_not c "." Hc eq_refl), (IH Hs).
Qed.

Lemma ParseInt_digits (s : string) :
  all_digits s = true -> s <> "" -> dec_val 0 s < 2 ^ 63 ->
  ParseInt s = (dec_val 0 s, None).
Proof.
  intros Hall Hne Hval.
  pose proof (dec_val_ge s 0 Hall ltac:(lia)) as Hge.
  destruct s as [|c s]; [contradiction|].
  pose proof Hall as Hall'. simpl in Hall'.
  apply andb_true_iff in Hall' as [Hc _].
  unfold ParseInt.
  rewrite (is_digit_not c "-" Hc eq_refl), (is_digit_not c "+" Hc eq_refl).
  cbv iota zeta.
  rewrite (ParseUint_digits (String c s) Hall Hne) by lia.
  cbn [fst snd negb andb].
  destruct (Z.leb_spec (2 ^ 63) (dec_val 0 (String c s))); [lia|].
  f_equal. apply to_int64_id. lia.
Qed.

(** Three non-empty runs of digits joined by dots, each below [2^63],
    parse to the version of the three numbers; leading zeros are read
    as usual. *)
Theorem ParseVersion_digits (p0 p1 p2 : string) :
  all_digits p0 = true -> all_digits p1 = true -> all_digits p2 = true ->
  p0 <> "" -> p1 <> "" -> p2 <> "" ->
  dec_val 0 p0 < 2 ^ 63 -> dec_val 0 p1 < 2 ^ 63 -> dec_val 0 p2 < 2 ^ 63 ->
  ParseVersion (p0 +:+ "." +:+ p1 +:+ "." +:+ p2)
    = Some (mkVersion (dec_val 0 p0) (dec_val 0 p1) (dec_val 0 p2), None).
Proof.
  intros H0 H1 H2 N0 N1 N2 V0 V1 V2.
  apply ParseVersion_parts;
    try (now apply all_digits_no_dot); now apply ParseInt_digits.
Qed.

Lemma ParseVersion_digits_witness :
  ParseVersion ("01" +:+ "." +:+ "4" +:+ "." +:+ "9999")
    = Some (mkVersion (dec_val 0 "01") (dec_val 0 "4") (dec_val 0 "9999"),
            None).
Proof.
  apply ParseVersion_digits; try reflexivity; discriminate.
Defined.

End VersionDigits.
